(** * A shallow embedding of the stream-arbiter testbench

    The Python sources under [src/testbench] describe a constrained-random
    testbench for a 2-to-1 stream arbiter: two [StreamInitiator] drivers
    ([a_init], [b_init]), one non-blocking [StreamResponder] driver
    ([x_resp]), one [StreamMonitor] ([x_mon]) feeding a scoreboard channel,
    two traffic sequences and the [random] testcase.

    Plain Python functions are embedded as state-passing functions over a
    [bench] record with an error monad for Python exceptions.  Coroutines
    ([async def] with [await]) are embedded as interaction trees whose events
    are the calls into the simulator or the sequencer; a fuel-indexed runner
    executes a tree against a finite prefix of clock edges. *)

From Stdlib Require Import ZArith String List Lia Bool.
From stdpp Require Import base decidable option list gmap strings pretty.
From ITree Require Import ITree Eq.Shallow.
From Stdlib Require QArith.

Open Scope string_scope.
Open Scope Z_scope.
Open Scope list_scope.

(** ** Transactions ([StreamTransaction], [StreamBackpressure]) *)

Record StreamTransaction := { data : Z }.

Record StreamBackpressure := { ready : bool; cycles : Z }.

(** The dataclasses are keyword-only with defaults: an omitted keyword is
    [None] here and takes the default of the class body. *)
Definition new_StreamTransaction (data : option Z) : StreamTransaction :=
  {| data := default 0 data |}.

Definition new_StreamBackpressure (ready : option bool) (cycles : option Z)
  : StreamBackpressure :=
  {| ready := default true ready; cycles := default 1 cycles |}.

(** What a driver queue or a scoreboard queue holds: any [BaseTransaction]. *)
Inductive transaction :=
| TStream (t : StreamTransaction)
| TBackpressure (b : StreamBackpressure).

(** Dataclass equality compares field by field. *)
#[global] Instance StreamTransaction_eq_dec : EqDecision StreamTransaction.
Proof. solve_decision. Defined.

#[global] Instance StreamBackpressure_eq_dec : EqDecision StreamBackpressure.
Proof. solve_decision. Defined.

#[global] Instance transaction_eq_dec : EqDecision transaction.
Proof. solve_decision. Defined.

(** Python truth value of an integer read from a signal. *)
Definition truthy (v : Z) : bool := negb (v =? 0).

(** ** The random source ([tb.random], [ctx.random])

    The generator is an arbitrary stream of raw draws and a cursor: every
    call consumes one draw and decodes it.  Quantifying over [draws] is
    quantifying over every sequence of outcomes. *)

Record Random := { draws : nat -> Z; drawn : nat }.

Definition next (r : Random) : Z * Random :=
  (draws r (drawn r), {| draws := draws r; drawn := S (drawn r) |}).

Definition getrandbits (k : Z) (r : Random) : Z * Random :=
  let (x, r') := next r in (x mod 2 ^ k, r').

(** [random.choice(seq)]: a uniformly drawn position of a sequence; [d] is
    only the filler of [nth] and is never returned for a non-empty [seq]. *)
Definition choice {A : Type} (seq : list A) (d : A) (r : Random) : A * Random :=
  let (x, r') := next r in
  (nth (Z.to_nat (x mod Z.of_nat (length seq))) seq d, r').

(** The draw of [random.randint(a, b)] on a non-empty range [a <= b]. *)
Definition randint_between (a b : Z) (r : Random) : Z * Random :=
  let (x, r') := next r in (a + x mod (b - a + 1), r').

(** ** Python exceptions as an error monad *)

Record mismatch := {
  mm_reference_head : transaction;
  mm_actual_head : transaction;
  mm_window : nat
}.

Inductive error :=
| AttributeError (name : string)
| KeyError (name : string)
| AssertionError
| RecursionError
| ValueError
| ScoreboardMismatch (m : mismatch).

Definition result (A : Type) : Type := error + A.

Definition ok {A : Type} (a : A) : result A := inr a.

Definition raise {A : Type} (e : error) : result A := inl e.

Definition rbind {A B : Type} (m : result A) (k : A -> result B) : result B :=
  match m with
  | inl e => inl e
  | inr a => k a
  end.

Notation "'let?' x ':=' m 'in' k" := (rbind m (fun x => k))
  (at level 10, x name, m at level 100, k at level 200).

(** [random.randint(a, b)]: [ValueError] on the empty range [b < a], before
    anything is drawn. *)
Definition randint (a b : Z) (r : Random) : result (Z * Random) :=
  if b <? a then raise ValueError else ok (randint_between a b r).

(** ** The scoreboard channel *)

Record channel := {
  reference : list transaction;
  actual : list transaction;
  window : nat
}.

(** Modelled from the spec: the windowed search of section 4.3, which is
    part of the framework and not of [src/].  The head of [actual] is
    compared against the reference entries from the head forward, up to
    [window] positions and not beyond the end of the queue; the nearest
    matching offset wins. *)
Fixpoint find_in_window (x : transaction) (ref : list transaction) (w : nat)
  : option nat :=
  match w, ref with
  | S w', r :: rest =>
      if decide (r = x) then Some O else S <$> find_in_window x rest w'
  | _, _ => None
  end.

(** Modelled from the spec: the matching step of section 4.3 (framework code
    absent from [src/]).  With both queues non-empty, a match at offset [k]
    removes reference entry [k] and the actual head; no match inside the
    window is a fatal mismatch reporting both heads and the window. *)
Definition match_step (c : channel) : mismatch + channel :=
  match actual c, reference c with
  | a :: arest, r :: _ =>
      match find_in_window a (reference c) (window c) with
      | Some k => inr {| reference := delete k (reference c);
                         actual := arest;
                         window := window c |}
      | None => inl {| mm_reference_head := r;
                       mm_actual_head := a;
                       mm_window := window c |}
      end
  | _, _ => inr c
  end.

(** Modelled from the spec: [push_reference] of section 4.3 (framework code
    absent from [src/]): append to the reference queue, then run the
    matching step. *)
Definition push_reference (c : channel) (x : transaction) : mismatch + channel :=
  match_step {| reference := reference c ++ [x];
                actual := actual c;
                window := window c |}.

(** Modelled from the spec: the hook fed by monitor captures (section 4.3,
    framework code absent from [src/]): append to the actual queue, then run
    the matching step. *)
Definition push_actual (c : channel) (x : transaction) : mismatch + channel :=
  match_step {| reference := reference c;
                actual := actual c ++ [x];
                window := window c |}.

(** Modelled from the spec: a run of the channel over the observed entries
    in arrival order.  A mismatch is fatal (sections 4.3 and 7: the run is
    aborted, nothing is retried), so the entries after it are not processed;
    the result is the list of reported mismatches and the channel state
    (at the failure, when there is one). *)
Fixpoint observe_all (c : channel) (xs : list transaction)
  : list mismatch * channel :=
  match xs with
  | [] => ([], c)
  | x :: rest =>
      match push_actual c x with
      | inr c' => observe_all c' rest
      | inl m => ([m], {| reference := reference c;
                          actual := actual c ++ [x];
                          window := window c |})
      end
  end.

Definition new_channel (w : nat) : channel :=
  {| reference := []; actual := []; window := w |}.

(** Modelled from the spec: filling the reference queue of a fresh channel
    (each push runs the matching step, which has nothing to do while the
    actual queue is empty). *)
Fixpoint push_references (c : channel) (xs : list transaction)
  : mismatch + channel :=
  match xs with
  | [] => inr c
  | x :: rest =>
      match push_reference c x with
      | inr c' => push_references c' rest
      | inl m => inl m
      end
  end.

(** ** The testbench: registry, event bus and [Testbench] *)

Inductive DriverEvent := ENQUEUE | PRE_DRIVE | POST_DRIVE.

#[global] Instance DriverEvent_eq_dec : EqDecision DriverEvent.
Proof. solve_decision. Defined.

Inductive IORole := INITIATOR | RESPONDER.

(** [StreamIO.__init__] fixes the signal groups of every stream port. *)
Record StreamIO := {
  io_name : string;
  io_role : IORole;
  init_sigs : list string;
  resp_sigs : list string
}.

Definition new_StreamIO (name : string) (role : IORole) : StreamIO :=
  {| io_name := name; io_role := role;
     init_sigs := ["data"; "valid"]; resp_sigs := ["ready"] |}.

(** The two Python callables that are subscribed to driver events:
    [Testbench.model] and the closure [_rand_bp] of the [random] testcase. *)
Inductive callback := cb_model | cb_rand_bp.

Inductive driver_class := StreamInitiator | StreamResponder.

Record driver := {
  drv_class : driver_class;
  drv_io : StreamIO;
  drv_blocking : bool;
  drv_queue : list transaction;
  drv_subscribers : list (DriverEvent * callback)
}.

(** The bench object.  Components registered under a name are reached by
    that name ([tb.a_init]); the scoreboard channels are the dict
    [tb.scoreboard.channels]. *)
Record bench := {
  tb_random : Random;
  drivers : gmap string driver;
  monitors : gmap string StreamIO;
  channels : gmap string channel;
  coroutines : list (string * Z)
}.

Definition set_random (r : Random) (tb : bench) : bench :=
  {| tb_random := r; drivers := drivers tb; monitors := monitors tb;
     channels := channels tb; coroutines := coroutines tb |}.

Definition set_driver (name : string) (d : driver) (tb : bench) : bench :=
  {| tb_random := tb_random tb; drivers := <[name := d]> (drivers tb);
     monitors := monitors tb; channels := channels tb;
     coroutines := coroutines tb |}.

Definition set_channel (name : string) (c : channel) (tb : bench) : bench :=
  {| tb_random := tb_random tb; drivers := drivers tb; monitors := monitors tb;
     channels := <[name := c]> (channels tb); coroutines := coroutines tb |}.

Definition get_driver (name : string) (tb : bench) : result driver :=
  match drivers tb !! name with
  | Some d => ok d
  | None => raise (AttributeError name)
  end.

(** [BaseBench.__init__]: an empty registry around the seeded generator. *)
Definition BaseBench_init (rng : Random) : bench :=
  {| tb_random := rng; drivers := ∅; monitors := ∅; channels := ∅;
     coroutines := [] |}.

(** [tb.register(name, driver)]. *)
Definition register_driver (name : string) (cls : driver_class) (io : StreamIO)
    (blocking : bool) (tb : bench) : bench :=
  set_driver name
    {| drv_class := cls; drv_io := io; drv_blocking := blocking;
       drv_queue := []; drv_subscribers := [] |} tb.

(** [tb.register(name, monitor, scoreboard_match_window=w)]: the monitor gets
    a scoreboard channel of its own name. *)
Definition register_monitor (name : string) (io : StreamIO) (w : nat)
    (tb : bench) : bench :=
  {| tb_random := tb_random tb; drivers := drivers tb;
     monitors := <[name := io]> (monitors tb);
     channels := <[name := new_channel w]> (channels tb);
     coroutines := coroutines tb |}.

(** [tb.register(name, coroutine)] for the long-running [_wait] task, kept
    as the number of clock cycles it waits for. *)
Definition register_coroutine (name : string) (delay : Z) (tb : bench) : bench :=
  {| tb_random := tb_random tb; drivers := drivers tb; monitors := monitors tb;
     channels := channels tb; coroutines := coroutines tb ++ [(name, delay)] |}.

(** Modelled from the spec: [subscribe] of section 4.5 (framework code absent
    from [src/]); callbacks are kept in registration order. *)
Definition subscribe (name : string) (ev : DriverEvent) (cb : callback)
    (tb : bench) : result bench :=
  let? d := get_driver name tb in
  ok (set_driver name
        {| drv_class := drv_class d; drv_io := drv_io d;
           drv_blocking := drv_blocking d; drv_queue := drv_queue d;
           drv_subscribers := drv_subscribers d ++ [(ev, cb)] |} tb).

Definition subscribers_for (ev : DriverEvent) (d : driver) : list callback :=
  snd <$> filter (fun p => fst p = ev) (drv_subscribers d).

(** [Testbench.model]: both assertions, then the reference push on the
    channel ["x_mon"].  The first assertion evaluates [self.a_init] and
    [self.b_init], in that order, which fails on a bench where one of them is
    not registered.  The publishing driver is identified by the name it is
    registered under. *)
Definition Testbench_model (drv : string) (event : DriverEvent)
    (obj : transaction) (tb : bench) : result bench :=
  let? _ := get_driver "a_init" tb in
  let? _ := get_driver "b_init" tb in
  if negb (bool_decide (drv ∈ ["a_init"; "b_init"])) then raise AssertionError
  else if negb (bool_decide (event = ENQUEUE)) then raise AssertionError
  else
    match channels tb !! "x_mon" with
    | None => raise (KeyError "x_mon")
    | Some ch =>
        match push_reference ch obj with
        | inl m => raise (ScoreboardMismatch m)
        | inr ch' => ok (set_channel "x_mon" ch' tb)
        end
    end.

(** Modelled from the spec: [publish] of section 4.5 (framework code absent
    from [src/]): every subscribed callback runs synchronously, in
    registration order, before control returns to the publisher. *)
Fixpoint publish (call : callback -> bench -> result bench)
    (subs : list callback) (tb : bench) : result bench :=
  match subs with
  | [] => ok tb
  | cb :: rest => let? tb' := call cb tb in publish call rest tb'
  end.

(** The closure [_rand_bp] of the testcase, over the [enqueue] it calls:
    keyword arguments are evaluated left to right. *)
Definition rand_bp_with
    (enq : string -> transaction -> bench -> result bench) (tb : bench)
  : result bench :=
  let (r, rng1) := choice [true; false] false (tb_random tb) in
  let? drawn := randint 1 10 rng1 in
  enq "x_resp"
      (TBackpressure (new_StreamBackpressure (Some r) (Some (fst drawn))))
      (set_random (snd drawn) tb).

(** Modelled from the spec: [enqueue] of section 4.1 (framework code absent
    from [src/]): append at the tail of the driver's queue, then publish
    [ENQUEUE] with the driver, the event and the transaction.  A callback may
    enqueue again; [depth] is the interpreter's recursion limit. *)
Fixpoint enqueue_at (depth : nat) (name : string) (obj : transaction)
    (tb : bench) {struct depth} : result bench :=
  match depth with
  | O => raise RecursionError
  | S depth' =>
      let? d := get_driver name tb in
      let tb1 :=
        set_driver name
          {| drv_class := drv_class d; drv_io := drv_io d;
             drv_blocking := drv_blocking d;
             drv_queue := drv_queue d ++ [obj];
             drv_subscribers := drv_subscribers d |} tb in
      publish
        (fun cb tb' =>
           match cb with
           | cb_model => Testbench_model name ENQUEUE obj tb'
           | cb_rand_bp => rand_bp_with (enqueue_at depth') tb'
           end)
        (subscribers_for ENQUEUE d) tb1
  end.

Definition recursion_limit : nat := 1000.

Definition enqueue : string -> transaction -> bench -> result bench :=
  enqueue_at recursion_limit.

Definition rand_bp : bench -> result bench := rand_bp_with enqueue.

(** [Testbench.__init__]. *)
Definition Testbench_init (rng : Random) : result bench :=
  let tb := BaseBench_init rng in
  let a_io := new_StreamIO "a" RESPONDER in
  let b_io := new_StreamIO "b" RESPONDER in
  let x_io := new_StreamIO "x" INITIATOR in
  let tb := register_driver "a_init" StreamInitiator a_io true tb in
  let tb := register_driver "b_init" StreamInitiator b_io true tb in
  let tb := register_driver "x_resp" StreamResponder x_io false tb in
  let tb := register_monitor "x_mon" x_io 4 tb in
  let? tb := subscribe "a_init" ENQUEUE cb_model tb in
  subscribe "b_init" ENQUEUE cb_model tb.

(** ** The [random] testcase *)

Record loop_state := { num_a : Z; num_b : Z; loop_tb : bench }.

(** One iteration of the packet loop.  [or] and [and] are lazy: the random
    choice is drawn only when the first disjunct is false and the first
    conjunct is true. *)
Definition random_iteration (st : loop_state) : result loop_state :=
  let tb := loop_tb st in
  let (bits, rng1) := getrandbits 32 (tb_random tb) in
  let obj := TStream (new_StreamTransaction (Some bits)) in
  let (cond, rng2) :=
    if num_b st >? num_a st + 2 then (true, rng1)
    else if num_a st <? num_b st + 2 then choice [true; false] false rng1
    else (false, rng1) in
  let tb := set_random rng2 tb in
  if cond then
    let? tb' := enqueue "a_init" obj tb in
    ok {| num_a := num_a st + 1; num_b := num_b st; loop_tb := tb' |}
  else
    let? tb' := enqueue "b_init" obj tb in
    ok {| num_a := num_a st; num_b := num_b st + 1; loop_tb := tb' |}.

(** [for _ in range(n)] over the loop body. *)
Fixpoint random_loop (n : nat) (st : loop_state) : result loop_state :=
  match n with
  | O => ok st
  | S n' => let? st' := random_iteration st in random_loop n' st'
  end.

(** The state the loop starts from: after the initial backpressure enqueue,
    with both counters at zero. *)
Definition random_prologue (tb : bench) : result loop_state :=
  let? tb := enqueue "x_resp"
               (TBackpressure (new_StreamBackpressure (Some true) None)) tb in
  ok {| num_a := 0; num_b := 0; loop_tb := tb |}.

(** The testcase body; [range(packets)] is empty for [packets <= 0]. *)
Definition random (packets delay : Z) (tb : bench) : result bench :=
  let? st := random_prologue tb in
  let? st := random_loop (Z.to_nat packets) st in
  let? tb := subscribe "x_resp" POST_DRIVE cb_rand_bp (loop_tb st) in
  let? tb := rand_bp tb in
  ok (register_coroutine "wait" delay tb).

(** ** Coroutines as interaction trees

    An [async def] is a tree of the calls it makes into its environment; an
    [await] is an event the environment may leave unanswered.  [run] executes
    a tree against a handler [handle]: an answered event continues, an
    unanswered one suspends the coroutine in the state reached. *)

Notation "'let*' x ':=' t 'in' k" := (ITree.bind t (fun x => k))
  (at level 10, x name, t at level 100, k at level 200).

Section Run.
Context {E : Type -> Type} {St : Type}.
Variable handle : forall T : Type, E T -> St -> St * option T.

Inductive outcome (R : Type) : Type :=
| Returned (r : R) (s : St)
| Suspended (s : St)
| OutOfFuel.

Fixpoint run {R : Type} (fuel : nat) (t : itree E R) (s : St) : outcome R :=
  match fuel with
  | O => OutOfFuel R
  | S fuel' =>
      match observe t with
      | RetF r => Returned R r s
      | TauF t' => run fuel' t' s
      | VisF e k =>
          match handle _ e s with
          | (s', Some a) => run fuel' (k a) s'
          | (s', None) => Suspended R s'
          end
      end
  end.

(** The coroutine reaches outcome [o] from [s]: every large enough fuel
    gives it. *)
Definition runs_to {R : Type} (t : itree E R) (s : St) (o : outcome R) : Prop :=
  exists fuel0 : nat, forall fuel : nat, (fuel0 <= fuel)%nat -> run fuel t s = o.
End Run.

Arguments Returned {St R} r s.
Arguments Suspended {St R} s.
Arguments OutOfFuel {St R}.

(** [while True: body], where [body] answers [inr r] for [break] with [r]
    and [inl tt] to go round again. *)
Definition while_true {E : Type -> Type} {R : Type} (body : itree E (unit + R))
  : itree E R :=
  ITree.iter (fun _ : unit => body) tt.

(** [for _ in range(n): body]. *)
Fixpoint for_range {E : Type -> Type} (n : nat) (body : itree E unit)
  : itree E unit :=
  match n with
  | O => Ret tt
  | S n' => let* _ := body in for_range n' body
  end.

(** *** The simulator seen from a driver or a monitor *)

Variant simE : Type -> Type :=
| RisingEdge : simE unit
| ClockCycles (n : Z) : simE unit
| RstValue : simE Z
| IoGet (comp : string) (default : Z) : simE Z
| IoSet (comp : string) (v : Z) : simE unit
| Capture (t : StreamTransaction) : simE unit.

(** What the design shows at one rising edge: the reset line and the value
    [self.io.get(comp, default)] returns for each signal. *)
Record edge := { rst_value : Z; io_value : string -> Z -> Z }.

Inductive obs :=
| ObsSet (comp : string) (v : Z)
| ObsGet (comp : string) (v : Z)
| ObsRst (v : Z)
| ObsCapture (t : StreamTransaction).

(** [now] counts the rising edges seen so far, [cur] is what is visible
    since the last one, [pending] are the edges still to come in the run
    and [log] records every access with the edge count at which it was
    made. *)
Record sim := {
  now : nat;
  cur : edge;
  pending : list edge;
  log : list (nat * obs)
}.

Definition record (o : obs) (s : sim) : sim :=
  {| now := now s; cur := cur s; pending := pending s;
     log := log s ++ [(now s, o)] |}.

(** [n] rising edges; unanswered when the run has fewer left. *)
Fixpoint wait_edges (n : nat) (s : sim) : sim * option unit :=
  match n with
  | O => (s, Some tt)
  | S n' =>
      match pending s with
      | [] => (s, None)
      | e :: rest =>
          wait_edges n' {| now := S (now s); cur := e; pending := rest;
                           log := log s |}
      end
  end.

(** [RisingEdge(clk)] is one edge and [ClockCycles(clk, n)] is [n] of them
    (none for [n <= 0]); reads see the current edge and are logged, writes
    and captures are logged. *)
Definition sim_handle (T : Type) (e : simE T) (s : sim) : sim * option T :=
  match e in simE T return sim * option T with
  | RisingEdge => wait_edges 1 s
  | ClockCycles n => wait_edges (Z.to_nat n) s
  | RstValue =>
      let v := rst_value (cur s) in (record (ObsRst v) s, Some v)
  | IoGet comp d =>
      let v := io_value (cur s) comp d in (record (ObsGet comp v) s, Some v)
  | IoSet comp v => (record (ObsSet comp v) s, Some tt)
  | Capture t => (record (ObsCapture t) s, Some tt)
  end.

(** Python's lazy [a and b] on two reads: the value of [a] when it is
    false, the value of [b] otherwise. *)
Definition py_and {E : Type -> Type} (a b : itree E Z) : itree E Z :=
  let* x := a in if truthy x then b else Ret x.

(** [StreamInitiator.drive]. *)
Definition StreamInitiator_drive (obj : StreamTransaction) : itree simE unit :=
  let* _ := ITree.trigger (IoSet "data" (data obj)) in
  let* _ := ITree.trigger (IoSet "valid" 1) in
  let* _ := while_true (
    let* _ := ITree.trigger RisingEdge in
    let* r := ITree.trigger (IoGet "ready" 1) in
    if truthy r then Ret (inr tt) else Ret (inl tt)) in
  ITree.trigger (IoSet "valid" 0).

(** The body of the loop of [StreamMonitor.monitor]; [continue] ends the
    iteration. *)
Definition monitor_iteration (rst_active_value : Z) : itree simE unit :=
  let* _ := ITree.trigger RisingEdge in
  let* rst := ITree.trigger RstValue in
  if rst =? rst_active_value then Ret tt
  else
    let* c := py_and (ITree.trigger (IoGet "valid" 1))
                     (ITree.trigger (IoGet "ready" 1)) in
    if truthy c then
      let* d := ITree.trigger (IoGet "data" 0) in
      ITree.trigger (Capture (new_StreamTransaction (Some d)))
    else Ret tt.

(** [StreamMonitor.monitor]: the loop has no [break] and never returns. *)
Definition StreamMonitor_monitor (rst_active_value : Z) : itree simE void :=
  while_true (
    let* _ := monitor_iteration rst_active_value in
    Ret (inl tt)).

(** [StreamResponder.drive]; the Boolean [obj.ready] is written as 1 or 0. *)
Definition StreamResponder_drive (obj : StreamBackpressure) : itree simE unit :=
  let* _ := ITree.trigger (IoSet "ready" (Z.b2z (ready obj))) in
  ITree.trigger (ClockCycles (cycles obj)).

(** *** The sequencer seen from a sequence *)

(** The weights handed to [random.choices] are opaque to the sequences:
    [weight] stands for Python's [float] and [one_minus b] for [1.0 - b]. *)
Section Sequences.
Context {weight : Type}.
Variable one_minus : weight -> weight.

Variant seqE : Type -> Type :=
| LogInfo (msg : string) : seqE unit
| LockAcquire : seqE unit
| LockRelease : seqE unit
| SeqEnqueue (obj : transaction) (wait_for : option DriverEvent) : seqE unit
| EventWait (ev : DriverEvent) : seqE unit
| SeqGetRandBits (k : Z) : seqE Z
| SeqChoices (w_true w_false : weight) : seqE bool
| SeqRandInt (a b : Z) : seqE (result Z).

(** [async with ctx.lock(stream): body]: the lock is taken on entry and
    given back when [body] is left, whether by its end or by an exception
    (which [body] then hands on as its result). *)
Definition with_lock {R : Type} (body : itree seqE R) : itree seqE R :=
  let* _ := ITree.trigger LockAcquire in
  let* r := body in
  let* _ := ITree.trigger LockRelease in
  Ret r.

(** [stream_traffic_seq]. *)
Definition stream_traffic_seq (length : Z) : itree seqE unit :=
  let* _ := ITree.trigger
              (LogInfo ("Generating " +:+ pretty length +:+
                        " random transactions")) in
  for_range (Z.to_nat length) (
    with_lock (
      let* bits := ITree.trigger (SeqGetRandBits 32) in
      ITree.trigger
        (SeqEnqueue (TStream (new_StreamTransaction (Some bits))) None))).

(** [stream_backpressure_seq]: the loop is inside the [async with].  It has
    no [break]: the only way out is the exception of [randint], raised while
    the arguments of [StreamBackpressure] are evaluated and so before the
    enqueue. *)
Definition backpressure_round (min_interval max_interval : Z)
    (backpressure : weight) : itree seqE (unit + result void) :=
  let* r := ITree.trigger (SeqChoices (one_minus backpressure) backpressure) in
  let* drawn := ITree.trigger (SeqRandInt min_interval max_interval) in
  match drawn with
  | inl e => Ret (inr (raise e))
  | inr c =>
      let* _ := ITree.trigger
                  (SeqEnqueue
                     (TBackpressure (new_StreamBackpressure (Some r) (Some c)))
                     (Some PRE_DRIVE)) in
      let* _ := ITree.trigger (EventWait PRE_DRIVE) in
      Ret (inl tt)
  end.

Definition stream_backpressure_seq (min_interval max_interval : Z)
    (backpressure : weight) : itree seqE (result void) :=
  with_lock (while_true (backpressure_round min_interval max_interval
                           backpressure)).
End Sequences.

Arguments seqE : clear implicits.

Inductive seq_obs :=
| Locked
| Unlocked
| Enqueued (obj : transaction)
| Waited (ev : DriverEvent).

#[global] Instance seq_obs_eq_dec : EqDecision seq_obs.
Proof. solve_decision. Defined.

(** The sequencer and the driver behind it: the generator of [ctx.random],
    the state of the driver's lock, the driver's queue, the number of
    awaited driver events that the run still delivers, and the trace of
    what the sequence did. *)
Record sequencer := {
  seq_random : Random;
  lock_held : bool;
  seq_queue : list transaction;
  deliveries : nat;
  seq_trace : list seq_obs;
  seq_messages : list string
}.

Definition seq_with_random (r : Random) (s : sequencer) : sequencer :=
  {| seq_random := r; lock_held := lock_held s; seq_queue := seq_queue s;
     deliveries := deliveries s; seq_trace := seq_trace s;
     seq_messages := seq_messages s |}.

(** One call on [ctx.random]: the answer, and the generator moved on. *)
Definition seq_draw {A : Type} (d : Random -> A * Random) (s : sequencer)
  : sequencer * option A :=
  (seq_with_random (snd (d (seq_random s))) s, Some (fst (d (seq_random s)))).

(** Taking the lock is unanswered while it is held; waiting for a driver
    event is unanswered when the run delivers no more of them.  The weights
    of [random.choices] only bias the draw: either outcome may come, so the
    answer is left to the generator. *)
Definition seq_handle {weight : Type} (T : Type) (e : seqE weight T)
    (s : sequencer) : sequencer * option T :=
  match e in seqE _ T return sequencer * option T with
  | LogInfo msg =>
      ({| seq_random := seq_random s; lock_held := lock_held s;
          seq_queue := seq_queue s; deliveries := deliveries s;
          seq_trace := seq_trace s;
          seq_messages := seq_messages s ++ [msg] |}, Some tt)
  | LockAcquire =>
      if lock_held s then (s, None)
      else
        ({| seq_random := seq_random s; lock_held := true;
            seq_queue := seq_queue s; deliveries := deliveries s;
            seq_trace := seq_trace s ++ [Locked];
            seq_messages := seq_messages s |}, Some tt)
  | LockRelease =>
      ({| seq_random := seq_random s; lock_held := false;
          seq_queue := seq_queue s; deliveries := deliveries s;
          seq_trace := seq_trace s ++ [Unlocked];
          seq_messages := seq_messages s |}, Some tt)
  | SeqEnqueue obj _ =>
      ({| seq_random := seq_random s; lock_held := lock_held s;
          seq_queue := seq_queue s ++ [obj]; deliveries := deliveries s;
          seq_trace := seq_trace s ++ [Enqueued obj];
          seq_messages := seq_messages s |}, Some tt)
  | EventWait ev =>
      match deliveries s with
      | O => (s, None)
      | S n =>
          ({| seq_random := seq_random s; lock_held := lock_held s;
              seq_queue := seq_queue s; deliveries := n;
              seq_trace := seq_trace s ++ [Waited ev];
              seq_messages := seq_messages s |}, Some tt)
      end
  | SeqGetRandBits k => seq_draw (getrandbits k) s
  | SeqChoices _ _ => seq_draw (choice [true; false] false) s
  | SeqRandInt a b =>
      match randint a b (seq_random s) with
      | inl e => (s, Some (raise e))
      | inr drawn => (seq_with_random (snd drawn) s, Some (ok (fst drawn)))
      end
  end.

(** The lock discipline of section 4.4 as a check of a trace: every enqueue
    is made with the lock held, and one hold of the lock covers at most one
    enqueue. *)
Fixpoint lock_per_transaction (held enqueued : bool) (tr : list seq_obs) : bool :=
  match tr with
  | [] => true
  | Locked :: rest => lock_per_transaction true false rest
  | Unlocked :: rest => lock_per_transaction false false rest
  | Enqueued _ :: rest =>
      held && negb enqueued && lock_per_transaction held true rest
  | Waited _ :: rest => lock_per_transaction held enqueued rest
  end.


Definition releases (tr : list seq_obs) : nat :=
  length (filter (fun o => o = Unlocked) tr).

(** ** Reading the simulator log *)

Definition ready_at (e : edge) : bool := truthy (io_value e "ready" 1).

(** The reads of ["ready"] made by a driver that polls it once after each
    of the edges [es], the first of which is edge number [S n]. *)
Fixpoint ready_polls (n : nat) (es : list edge) : list (nat * obs) :=
  match es with
  | [] => []
  | e :: rest =>
      (S n, ObsGet "ready" (io_value e "ready" 1)) :: ready_polls (S n) rest
  end.

Definition captures (l : list (nat * obs)) : list (nat * StreamTransaction) :=
  omap (fun p => match snd p with
                 | ObsCapture t => Some (fst p, t)
                 | _ => None
                 end) l.

Definition writes (l : list (nat * obs)) : list (nat * (string * Z)) :=
  omap (fun p => match snd p with
                 | ObsSet comp v => Some (fst p, (comp, v))
                 | _ => None
                 end) l.

(** The transactions handed to the capture callback at edge number [t]. *)
Definition captured_at (t : nat) (l : list (nat * obs)) : list StreamTransaction :=
  snd <$> filter (fun p => fst p = t) (captures l).

(** The sampling rule of section 4.2 for one edge: nothing while reset is
    active; otherwise one transaction carrying the visible data when both
    [valid] and [ready] read true; nothing on any other edge. *)
Definition sampled (rst_active_value : Z) (e : edge) : list StreamTransaction :=
  if rst_value e =? rst_active_value then []
  else if truthy (io_value e "valid" 1) && truthy (io_value e "ready" 1)
       then [{| data := io_value e "data" 0 |}]
       else [].

(** Everything the monitor does at edge number [t] showing [e]. *)
Definition monitor_edge_log (rst_active_value : Z) (t : nat) (e : edge)
  : list (nat * obs) :=
  (t, ObsRst (rst_value e)) ::
  if rst_value e =? rst_active_value then []
  else
    (t, ObsGet "valid" (io_value e "valid" 1)) ::
    if truthy (io_value e "valid" 1) then
      (t, ObsGet "ready" (io_value e "ready" 1)) ::
      if truthy (io_value e "ready" 1) then
        [(t, ObsGet "data" (io_value e "data" 0));
         (t, ObsCapture {| data := io_value e "data" 0 |})]
      else []
    else [].

Fixpoint monitor_log (rst_active_value : Z) (n : nat) (es : list edge)
  : list (nat * obs) :=
  match es with
  | [] => []
  | e :: rest =>
      monitor_edge_log rst_active_value (S n) e ++
      monitor_log rst_active_value (S n) rest
  end.

(** ** Reading the sequencer trace *)

(** A sequence starts on a free lock and an empty driver queue; [k] is the
    number of awaited driver events the run delivers. *)
Definition seq_start (rng : Random) (k : nat) : sequencer :=
  {| seq_random := rng; lock_held := false; seq_queue := [];
     deliveries := k; seq_trace := []; seq_messages := [] |}.

(** The transactions of [n] rounds of [stream_traffic_seq] and the
    generator left after them. *)
Fixpoint traffic_objs (r : Random) (n : nat) : list transaction :=
  match n with
  | O => []
  | S n' =>
      TStream {| data := fst (getrandbits 32 r) |} ::
      traffic_objs (snd (getrandbits 32 r)) n'
  end.

Fixpoint traffic_random (r : Random) (n : nat) : Random :=
  match n with
  | O => r
  | S n' => traffic_random (snd (getrandbits 32 r)) n'
  end.

Definition traffic_trace (objs : list transaction) : list seq_obs :=
  flat_map (fun obj => [Locked; Enqueued obj; Unlocked]) objs.

(** One transaction of [stream_backpressure_seq] and the generator left
    after its two draws, for [min_interval <= max_interval]. *)
Definition backpressure_obj (min_interval max_interval : Z) (r : Random)
  : transaction :=
  TBackpressure
    {| ready := fst (choice [true; false] false r);
       cycles := fst (randint_between min_interval max_interval
                        (snd (choice [true; false] false r))) |}.

Definition backpressure_random (min_interval max_interval : Z) (r : Random)
  : Random :=
  snd (randint_between min_interval max_interval
         (snd (choice [true; false] false r))).



(** What the loop does when [k] of its waits are answered: [k] rounds of
    enqueue and wait, then the enqueue of round [k + 1], whose wait is not
    answered. *)
Fixpoint backpressure_trace (min_interval max_interval : Z) (r : Random)
    (k : nat) : list seq_obs :=
  match k with
  | O => [Enqueued (backpressure_obj min_interval max_interval r)]
  | S k' =>
      Enqueued (backpressure_obj min_interval max_interval r) ::
      Waited PRE_DRIVE ::
      backpressure_trace min_interval max_interval
        (backpressure_random min_interval max_interval r) k'
  end.

(** ** Reading the bench *)

Definition queue_of (name : string) (tb : bench) : list transaction :=
  from_option drv_queue [] (drivers tb !! name).

Definition reference_of (name : string) (tb : bench) : list transaction :=
  from_option reference [] (channels tb !! name).

(** A series of enqueues on the two initiators: [true] for [a_init],
    [false] for [b_init]. *)
Fixpoint enqueue_all (l : list (bool * transaction)) (tb : bench)
  : result bench :=
  match l with
  | [] => ok tb
  | (on_a, obj) :: rest =>
      let? tb' := enqueue (if on_a then "a_init" else "b_init") obj tb in
      enqueue_all rest tb'
  end.

(** The testcase in a freshly built testbench, stopped after [n] rounds of
    its packet loop. *)
Definition random_prefix (rng : Random) (n : nat) : result loop_state :=
  let? tb := Testbench_init rng in
  let? st := random_prologue tb in
  random_loop n st.

Definition counters (r : result loop_state) : option (Z * Z) :=
  match r with
  | inr st => Some (num_a st, num_b st)
  | inl _ => None
  end.

(** The shape [Testbench.__init__] gives the bench and every enqueue
    before the simulation starts keeps: [model] is the one [ENQUEUE]
    subscriber of each initiator, the responder has none, and nothing has
    been observed yet on the channel ["x_mon"]. *)
Record bench_ok (tb : bench) : Prop := {
  ok_a_init : exists d : driver,
      drivers tb !! "a_init" = Some d /\ subscribers_for ENQUEUE d = [cb_model];
  ok_b_init : exists d : driver,
      drivers tb !! "b_init" = Some d /\ subscribers_for ENQUEUE d = [cb_model];
  ok_x_resp : exists d : driver,
      drivers tb !! "x_resp" = Some d /\ subscribers_for ENQUEUE d = [];
  ok_x_mon : exists c : channel,
      channels tb !! "x_mon" = Some c /\ actual c = []
}.

(** What one round of the packet loop does when it enqueues [obj] on
    [a_init], and when it enqueues it on [b_init]. *)
Definition round_on_a (st st' : loop_state) (obj : transaction) : Prop :=
  queue_of "a_init" (loop_tb st') = queue_of "a_init" (loop_tb st) ++ [obj] /\
  queue_of "b_init" (loop_tb st') = queue_of "b_init" (loop_tb st) /\
  num_a st' = num_a st + 1 /\ num_b st' = num_b st.

Definition round_on_b (st st' : loop_state) (obj : transaction) : Prop :=
  queue_of "a_init" (loop_tb st') = queue_of "a_init" (loop_tb st) /\
  queue_of "b_init" (loop_tb st') = queue_of "b_init" (loop_tb st) ++ [obj] /\
  num_a st' = num_a st /\ num_b st' = num_b st + 1.

(** ** Sample inputs *)

(** An edge out of reset on which [valid] and [ready] read [v] and [r] and
    [data] reads [d]. *)
Definition sample_edge (v r d : Z) : edge :=
  {| rst_value := 0;
     io_value := fun comp default =>
       if String.eqb comp "valid" then v
       else if String.eqb comp "ready" then r
       else if String.eqb comp "data" then d
       else default |}.

(** A stream transaction carrying the data word [d]. *)
Definition sample_txn (d : Z) : transaction := TStream {| data := d |}.

(** The same edge with the reset line at 1. *)
Definition sample_reset_edge (v r d : Z) : edge :=
  {| rst_value := 1; io_value := io_value (sample_edge v r d) |}.

(** A generator whose every draw is [x]. *)
Definition constant_random (x : Z) : Random :=
  {| draws := fun _ => x; drawn := 0 |}.

(** A sequencer whose lock is held by another sequence. *)
Definition sample_locked : sequencer :=
  {| seq_random := constant_random 0; lock_held := true; seq_queue := [];
     deliveries := 3; seq_trace := []; seq_messages := [] |}.

(** A bench with the two initiators and no channel, and the same bench
    with the channel ["x_mon"]. *)
Definition sample_bench_unmonitored : bench :=
  register_driver "b_init" StreamInitiator (new_StreamIO "b" RESPONDER) true
    (register_driver "a_init" StreamInitiator (new_StreamIO "a" RESPONDER) true
       (BaseBench_init (constant_random 0))).

Definition sample_bench : bench :=
  register_monitor "x_mon" (new_StreamIO "x" INITIATOR) 4
    sample_bench_unmonitored.

(** A bench on which only [a_init] is registered. *)
Definition sample_bench_a_only : bench :=
  register_driver "a_init" StreamInitiator (new_StreamIO "a" RESPONDER) true
    (BaseBench_init (constant_random 0)).

(** ** Further readings of the models *)

Definition reads (l : list (nat * obs)) : list (nat * string) :=
  omap (fun p => match snd p with
                 | ObsGet comp _ => Some (fst p, comp)
                 | _ => None
                 end) l.

(** The port signals read at edge number [t], in the order of the reads. *)
Definition reads_at (t : nat) (l : list (nat * obs)) : list string :=
  snd <$> filter (fun p => fst p = t) (reads l).

(** The port signals [StreamMonitor.monitor] reads at an edge showing [e]:
    none in reset; otherwise [valid], then [ready] if [valid] was true, then
    [data] if [ready] was true too. *)
Definition edge_reads (rst_active_value : Z) (e : edge) : list string :=
  if rst_value e =? rst_active_value then []
  else
    "valid" ::
    if truthy (io_value e "valid" 1) then
      "ready" :: if truthy (io_value e "ready" 1) then ["data"] else []
    else [].

(** The captures of a monitor on the edges [es], the first of which is edge
    number [S n], in the order they are made. *)
Fixpoint sampled_log (rst_active_value : Z) (n : nat) (es : list edge)
  : list (nat * StreamTransaction) :=
  match es with
  | [] => []
  | e :: rest =>
      (pair (S n) <$> sampled rst_active_value e) ++
      sampled_log rst_active_value (S n) rest
  end.

(** The port carries what an initiator wrote for [obj]: [valid] reads true
    and [data] reads [obj.data]; the reset line is not at [active]. *)
Definition shows (active : Z) (obj : StreamTransaction) (e : edge) : Prop :=
  truthy (io_value e "valid" 1) = true /\
  io_value e "data" 0 = data obj /\
  (rst_value e =? active) = false.

(** Consecutive calls of [StreamInitiator.drive], one per transaction, in
    the order of the list. *)
Fixpoint drive_each (objs : list StreamTransaction) : itree simE unit :=
  match objs with
  | [] => Ret tt
  | obj :: rest => let* _ := StreamInitiator_drive obj in drive_each rest
  end.

(** The writes of [drive_each] on a port that accepts at every edge, the
    first call starting at edge count [n]. *)
Fixpoint back_to_back_writes (n : nat) (objs : list StreamTransaction)
  : list (nat * (string * Z)) :=
  match objs with
  | [] => []
  | obj :: rest =>
      (n, ("data", data obj)) :: (n, ("valid", 1)) :: (S n, ("valid", 0)) ::
      back_to_back_writes (S n) rest
  end.

(** [l] is a merge of [l1] and [l2] that keeps the order of both. *)
Inductive interleaved {A : Type} : list A -> list A -> list A -> Prop :=
| interleaved_nil : interleaved [] [] []
| interleaved_left (x : A) (l1 l2 l : list A) :
    interleaved l1 l2 l -> interleaved (x :: l1) l2 (x :: l)
| interleaved_right (x : A) (l1 l2 l : list A) :
    interleaved l1 l2 l -> interleaved l1 (x :: l2) (x :: l).

(** A stream transaction whose data word fits 32 bits. *)
Definition stream_word (obj : transaction) : Prop :=
  match obj with
  | TStream t => 0 <= data t < 2 ^ 32
  | TBackpressure _ => False
  end.

(** A backpressure transaction held for between [lo] and [hi] cycles. *)
Definition backpressure_within (lo hi : Z) (obj : transaction) : Prop :=
  match obj with
  | TStream _ => False
  | TBackpressure b => lo <= cycles b <= hi
  end.

Definition waits (tr : list seq_obs) : nat :=
  length (filter (fun o => o = Waited PRE_DRIVE) tr).

Definition subscribers_of (name : string) (ev : DriverEvent) (tb : bench)
  : list callback :=
  from_option (subscribers_for ev) [] (drivers tb !! name).

(** * Facts about the runner *)

Section RunFacts.
Context {E : Type -> Type} {St : Type}.
Variable handle : forall T : Type, E T -> St -> St * option T.

Lemma run_observe {R : Type} (fuel : nat) (t1 t2 : itree E R) (s : St) :
  observe t1 = observe t2 -> run handle fuel t1 s = run handle fuel t2 s.
Proof.
  intros Hobs. destruct fuel as [|fuel]; simpl; [reflexivity|].
  rewrite Hobs. reflexivity.
Qed.

Lemma run_mono {R : Type} (fuel : nat) :
  forall (t : itree E R) (s : St) (o : outcome R) (fuel' : nat),
    run handle fuel t s = o -> o <> OutOfFuel -> (fuel <= fuel')%nat ->
    run handle fuel' t s = o.
Proof.
  induction fuel as [|fuel IH]; intros t s o fuel' Hrun Hne Hle.
  - simpl in Hrun. congruence.
  - destruct fuel' as [|fuel']; [lia|].
    simpl in *. destruct (observe t) as [r|t'|X e k].
    + exact Hrun.
    + apply IH; [exact Hrun | exact Hne | lia].
    + destruct (handle X e s) as [s' [a|]].
      * apply IH; [exact Hrun | exact Hne | lia].
      * exact Hrun.
Qed.

Lemma run_runs_to {R : Type} (fuel : nat) (t : itree E R) (s : St)
    (o : outcome R) :
  run handle fuel t s = o -> o <> OutOfFuel -> runs_to handle t s o.
Proof.
  intros Hrun Hne. exists fuel. intros fuel' Hle.
  eapply run_mono; eauto.
Qed.

Lemma runs_to_det {R : Type} (t : itree E R) (s : St) (o1 o2 : outcome R) :
  runs_to handle t s o1 -> runs_to handle t s o2 -> o1 = o2.
Proof.
  intros [f1 H1] [f2 H2].
  rewrite <- (H1 (Nat.max f1 f2)) by lia.
  rewrite <- (H2 (Nat.max f1 f2)) by lia.
  reflexivity.
Qed.

Lemma runs_to_eq {R : Type} (t : itree E R) (s s2 : St) (o o2 : outcome R) :
  runs_to handle t s o -> s = s2 -> o = o2 -> runs_to handle t s2 o2.
Proof. intros H -> ->. exact H. Qed.

Lemma runs_to_observe {R : Type} (t1 t2 : itree E R) (s : St) (o : outcome R) :
  observe t1 = observe t2 -> runs_to handle t2 s o -> runs_to handle t1 s o.
Proof.
  intros Hobs [f0 H]. exists f0. intros fuel Hle.
  rewrite (run_observe fuel t1 t2 s Hobs). apply H, Hle.
Qed.

Lemma runs_to_ret {R : Type} (r : R) (s : St) :
  runs_to handle (Ret r) s (Returned r s).
Proof. exists 1%nat. intros [|fuel] Hle; [lia|reflexivity]. Qed.

Lemma runs_to_tau {R : Type} (t : itree E R) (s : St) (o : outcome R) :
  runs_to handle t s o -> runs_to handle (Tau t) s o.
Proof.
  intros [f0 H]. exists (S f0). intros [|fuel] Hle; [lia|].
  simpl. apply H. lia.
Qed.

Lemma runs_to_trigger {T : Type} (e : E T) (s s' : St) (a : T) :
  handle T e s = (s', Some a) ->
  runs_to handle (ITree.trigger e) s (Returned a s').
Proof.
  intros Hh. exists 2%nat. intros [|[|fuel]] Hle; try lia.
  simpl. rewrite Hh. reflexivity.
Qed.

Lemma runs_to_trigger_suspended {T : Type} (e : E T) (s s' : St) :
  handle T e s = (s', None) ->
  runs_to handle (ITree.trigger e) s (Suspended s').
Proof.
  intros Hh. exists 1%nat. intros [|fuel] Hle; try lia.
  simpl. rewrite Hh. reflexivity.
Qed.

Lemma run_bind_returned {R U : Type} (k : R -> itree E U) (r : R) (s1 : St)
    (fuel : nat) :
  forall (t : itree E R) (s : St),
    run handle fuel t s = Returned r s1 ->
    forall g : nat, exists g' : nat,
      (g <= g')%nat /\
      run handle (fuel + g) (ITree.bind t k) s = run handle g' (k r) s1.
Proof.
  induction fuel as [|fuel IH]; intros t s Hrun g.
  - simpl in Hrun. discriminate.
  - rewrite (run_observe _ _ _ s (observe_bind t k)).
    simpl in Hrun. destruct (observe t) as [r0|t'|X e ke].
    + inversion Hrun; subst. exists (S fuel + g)%nat. split; [lia|reflexivity].
    + destruct (IH t' s Hrun g) as (g' & Hle & Heq).
      exists g'. split; [exact Hle|]. simpl. exact Heq.
    + simpl. destruct (handle X e s) as [s' [a|]]; [|discriminate].
      destruct (IH (ke a) s' Hrun g) as (g' & Hle & Heq).
      exists g'. split; [exact Hle|exact Heq].
Qed.

Lemma run_bind_suspended {R U : Type} (k : R -> itree E U) (s1 : St)
    (fuel : nat) :
  forall (t : itree E R) (s : St),
    run handle fuel t s = Suspended s1 ->
    run handle fuel (ITree.bind t k) s = Suspended s1.
Proof.
  induction fuel as [|fuel IH]; intros t s Hrun.
  - simpl in Hrun. discriminate.
  - rewrite (run_observe _ _ _ s (observe_bind t k)).
    simpl in Hrun. destruct (observe t) as [r0|t'|X e ke].
    + discriminate.
    + simpl. apply IH, Hrun.
    + simpl. destruct (handle X e s) as [s' [a|]].
      * apply IH, Hrun.
      * inversion Hrun; subst. reflexivity.
Qed.

Lemma runs_to_bind {R U : Type} (t : itree E R) (k : R -> itree E U)
    (s s1 : St) (r : R) (o : outcome U) :
  runs_to handle t s (Returned r s1) ->
  runs_to handle (k r) s1 o ->
  runs_to handle (ITree.bind t k) s o.
Proof.
  intros [f1 H1] [f2 H2]. exists (f1 + f2)%nat. intros fuel Hle.
  destruct (run_bind_returned k r s1 f1 t s (H1 f1 (Nat.le_refl _)) (fuel - f1))
    as (g' & Hg & Heq).
  replace (f1 + (fuel - f1))%nat with fuel in Heq by lia.
  rewrite Heq. apply H2. lia.
Qed.

Lemma runs_to_bind_suspended {R U : Type} (t : itree E R)
    (k : R -> itree E U) (s s1 : St) :
  runs_to handle t s (Suspended s1) ->
  runs_to handle (ITree.bind t k) s (Suspended s1).
Proof.
  intros [f1 H1]. exists f1. intros fuel Hle.
  apply run_bind_suspended, H1, Hle.
Qed.

Lemma observe_while_true {R : Type} (body : itree E (unit + R)) :
  observe (while_true body) =
  observe (ITree.bind body (fun lr =>
             match lr with
             | inl l => Tau (ITree.iter (fun _ : unit => body) l)
             | inr r => Ret r
             end)).
Proof. reflexivity. Qed.

Lemma runs_to_while_again {R : Type} (body : itree E (unit + R))
    (s s1 : St) (o : outcome R) :
  runs_to handle body s (Returned (inl tt) s1) ->
  runs_to handle (while_true body) s1 o ->
  runs_to handle (while_true body) s o.
Proof.
  intros Hbody Hrest.
  eapply runs_to_observe; [apply observe_while_true|].
  eapply runs_to_bind; [exact Hbody|].
  apply runs_to_tau, Hrest.
Qed.

Lemma runs_to_while_break {R : Type} (body : itree E (unit + R))
    (s s1 : St) (r : R) :
  runs_to handle body s (Returned (inr r) s1) ->
  runs_to handle (while_true body) s (Returned r s1).
Proof.
  intros Hbody.
  eapply runs_to_observe; [apply observe_while_true|].
  eapply runs_to_bind; [exact Hbody|].
  apply runs_to_ret.
Qed.

Lemma runs_to_while_suspended {R : Type} (body : itree E (unit + R))
    (s s1 : St) :
  runs_to handle body s (Suspended s1) ->
  runs_to handle (while_true body) s (Suspended s1).
Proof.
  intros Hbody.
  eapply runs_to_observe; [apply observe_while_true|].
  apply runs_to_bind_suspended, Hbody.
Qed.
End RunFacts.

(** * The stream initiator *)

Ltac run_event :=
  eapply runs_to_bind;
  [ apply runs_to_trigger; reflexivity
  | cbn beta iota; unfold record; cbn [now cur pending log] ].

Lemma ready_polls_app (n : nat) (es1 es2 : list edge) :
  ready_polls n (es1 ++ es2) =
  ready_polls n es1 ++ ready_polls (n + length es1) es2.
Proof.
  revert n. induction es1 as [|e es1 IH]; intros n; simpl.
  - rewrite Nat.add_0_r. reflexivity.
  - rewrite IH.
    replace (n + S (length es1))%nat with (S n + length es1)%nat by lia.
    reflexivity.
Qed.

Lemma last_cons_default {A : Type} (es : list A) :
  forall x d : A, List.last (x :: es) d = List.last es x.
Proof.
  induction es as [|y es IH]; intros x d; [reflexivity|].
  change (List.last (x :: y :: es) d) with (List.last (y :: es) d).
  rewrite !IH. reflexivity.
Qed.

Lemma writes_app (l1 l2 : list (nat * obs)) :
  writes (l1 ++ l2) = writes l1 ++ writes l2.
Proof. unfold writes. apply omap_app. Qed.

Lemma writes_ready_polls (n : nat) (es : list edge) :
  writes (ready_polls n es) = [].
Proof.
  revert n. induction es as [|e es IH]; intros n; simpl; [reflexivity|].
  unfold writes in *. simpl. apply IH.
Qed.

(** The polling loop of [drive], on edges that all refuse. *)
Lemma poll_loop_refused (body := (let* _ := ITree.trigger RisingEdge in
                                  let* r := ITree.trigger (IoGet "ready" 1) in
                                  if truthy r then Ret (inr tt) else Ret (inl tt))
                                 : itree simE (unit + unit))
    (es : list edge) :
  forall (n : nat) (c : edge) (l : list (nat * obs)),
    Forall (fun x => ready_at x = false) es ->
    runs_to sim_handle (while_true body)
      {| now := n; cur := c; pending := es; log := l |}
      (Suspended {| now := n + length es; cur := List.last es c; pending := [];
                    log := l ++ ready_polls n es |}).
Proof.
  induction es as [|e es IH]; intros n c l Hall.
  - simpl. rewrite Nat.add_0_r, app_nil_r.
    apply runs_to_while_suspended. subst body.
    apply runs_to_bind_suspended, runs_to_trigger_suspended. reflexivity.
  - inversion Hall as [|? ? He Hes]; subst.
    eapply runs_to_while_again.
    + subst body. run_event. run_event.
      unfold ready_at in He. rewrite He. apply runs_to_ret.
    + specialize (IH (S n) e (l ++ [(S n, ObsGet "ready" (io_value e "ready" 1))]) Hes).
      cbn [length ready_polls].
      replace (n + S (length es))%nat with (S n + length es)%nat by lia.
      rewrite last_cons_default.
      rewrite <- app_assoc in IH. exact IH.
Qed.

Lemma poll_loop_accepted (body := (let* _ := ITree.trigger RisingEdge in
                                   let* r := ITree.trigger (IoGet "ready" 1) in
                                   if truthy r then Ret (inr tt) else Ret (inl tt))
                                  : itree simE (unit + unit))
    (pre : list edge) (e : edge) (post : list edge) :
  forall (n : nat) (c : edge) (l : list (nat * obs)),
    Forall (fun x => ready_at x = false) pre ->
    ready_at e = true ->
    runs_to sim_handle (while_true body)
      {| now := n; cur := c; pending := pre ++ e :: post; log := l |}
      (Returned tt {| now := n + length pre + 1; cur := e; pending := post;
                      log := l ++ ready_polls n (pre ++ [e]) |}).
Proof.
  induction pre as [|x pre IH]; intros n c l Hall He.
  - simpl. apply runs_to_while_break. subst body.
    run_event. run_event.
    unfold ready_at in He. rewrite He.
    replace (n + 0 + 1)%nat with (S n) by lia. apply runs_to_ret.
  - inversion Hall as [|? ? Hx Hpre]; subst.
    eapply runs_to_while_again.
    + subst body. run_event. run_event.
      unfold ready_at in Hx. rewrite Hx. apply runs_to_ret.
    + specialize (IH (S n) x (l ++ [(S n, ObsGet "ready" (io_value x "ready" 1))])
                     Hpre He).
      cbn [length ready_polls app].
      replace (n + S (length pre) + 1)%nat with (S n + length pre + 1)%nat by lia.
      rewrite <- app_assoc in IH. exact IH.
Qed.

Lemma edges_first_ready (es : list edge) :
  Forall (fun x => ready_at x = false) es \/
  exists (pre : list edge) (e : edge) (post : list edge),
    es = pre ++ e :: post /\
    Forall (fun x => ready_at x = false) pre /\ ready_at e = true.
Proof.
  induction es as [|x es IH].
  - left. constructor.
  - destruct (ready_at x) eqn:Hx.
    + right. exists [], x, es. repeat split; [constructor | exact Hx].
    + destruct IH as [Hall | (pre & e & post & -> & Hpre & He)].
      * left. constructor; assumption.
      * right. exists (x :: pre), e, post.
        repeat split; [constructor; assumption | exact He].
Qed.

Lemma drive_accepted (obj : StreamTransaction) (n : nat) (c : edge)
    (l : list (nat * obs)) (pre : list edge) (e : edge) (post : list edge) :
  Forall (fun x => ready_at x = false) pre ->
  ready_at e = true ->
  runs_to sim_handle (StreamInitiator_drive obj)
    {| now := n; cur := c; pending := pre ++ e :: post; log := l |}
    (Returned tt
       {| now := n + length pre + 1; cur := e; pending := post;
          log := l ++ [(n, ObsSet "data" (data obj)); (n, ObsSet "valid" 1)]
                   ++ ready_polls n (pre ++ [e])
                   ++ [((n + length pre + 1)%nat, ObsSet "valid" 0)] |}).
Proof.
  intros Hpre He. unfold StreamInitiator_drive.
  run_event. run_event.
  eapply runs_to_bind.
  - apply poll_loop_accepted; eassumption.
  - cbn beta.
    match goal with
    | |- runs_to _ _ ?s (Returned tt ?s') =>
        replace s' with (record (ObsSet "valid" 0) s)
    end.
    + apply runs_to_trigger. reflexivity.
    + unfold record. cbn [now cur pending log].
      rewrite <- !app_assoc. reflexivity.
Qed.

Lemma drive_refused (obj : StreamTransaction) (n : nat) (c : edge)
    (l : list (nat * obs)) (es : list edge) :
  Forall (fun x => ready_at x = false) es ->
  runs_to sim_handle (StreamInitiator_drive obj)
    {| now := n; cur := c; pending := es; log := l |}
    (Suspended
       {| now := n + length es; cur := List.last es c; pending := [];
          log := l ++ [(n, ObsSet "data" (data obj)); (n, ObsSet "valid" 1)]
                   ++ ready_polls n es |}).
Proof.
  intros Hes. unfold StreamInitiator_drive.
  run_event. run_event.
  apply runs_to_bind_suspended.
  replace (l ++ [(n, ObsSet "data" (data obj)); (n, ObsSet "valid" 1)]
             ++ ready_polls n es)
    with (((l ++ [(n, ObsSet "data" (data obj))]) ++ [(n, ObsSet "valid" 1)])
            ++ ready_polls n es)
    by (rewrite <- !app_assoc; reflexivity).
  apply poll_loop_refused. exact Hes.
Qed.

(** C3: [StreamInitiator.drive(obj)] writes [data := obj.data] and
    [valid := 1] before any edge, then only polls [ready] (once after each
    rising edge) until the first edge [e] at which [ready] reads true; right
    after that edge it writes [valid := 0] and returns.  On any run that
    stops before that edge the coroutine is still suspended and has written
    nothing but [data] and [valid := 1]. *)
Theorem StreamInitiator_drive_handshake (obj : StreamTransaction) (n : nat)
    (c : edge) (l : list (nat * obs)) (pre : list edge) (e : edge)
    (post : list edge) :
  Forall (fun x => ready_at x = false) pre ->
  ready_at e = true ->
  runs_to sim_handle (StreamInitiator_drive obj)
    {| now := n; cur := c; pending := pre ++ e :: post; log := l |}
    (Returned tt
       {| now := n + length pre + 1; cur := e; pending := post;
          log := l ++ [(n, ObsSet "data" (data obj)); (n, ObsSet "valid" 1)]
                   ++ ready_polls n (pre ++ [e])
                   ++ [((n + length pre + 1)%nat, ObsSet "valid" 0)] |})
  /\ forall k : nat,
       runs_to sim_handle (StreamInitiator_drive obj)
         {| now := n; cur := c; pending := take k pre; log := l |}
         (Suspended
            {| now := n + length (take k pre);
               cur := List.last (take k pre) c; pending := [];
               log := l ++ [(n, ObsSet "data" (data obj));
                            (n, ObsSet "valid" 1)]
                        ++ ready_polls n (take k pre) |}).
Proof.
  intros Hpre He. split.
  - apply drive_accepted; assumption.
  - intros k. apply drive_refused. apply Forall_take, Hpre.
Qed.

(** C8: from every simulator state, also one whose visible [ready] is
    already true, [StreamInitiator.drive] either returns, and then it wrote
    [valid := 1] at the edge count it started at and [valid := 0] at a
    strictly later one, or it is suspended with [valid] still asserted. *)
Theorem StreamInitiator_drive_valid_spans_edge (obj : StreamTransaction)
    (s : sim) :
  (exists s' : sim,
      runs_to sim_handle (StreamInitiator_drive obj) s (Returned tt s') /\
      (now s < now s')%nat /\
      writes (log s') =
        writes (log s) ++ [(now s, ("data", data obj)); (now s, ("valid", 1));
                           (now s', ("valid", 0))])
  \/
  (exists s' : sim,
      runs_to sim_handle (StreamInitiator_drive obj) s (Suspended s') /\
      writes (log s') =
        writes (log s) ++ [(now s, ("data", data obj)); (now s, ("valid", 1))]).
Proof.
  destruct s as [n c es l]. cbn [now log].
  destruct (edges_first_ready es) as [Hall | (pre & e & post & -> & Hpre & He)].
  - right. eexists. split; [apply drive_refused, Hall|].
    cbn [log]. rewrite !writes_app, writes_ready_polls, app_nil_r.
    reflexivity.
  - left. eexists. split; [apply drive_accepted; assumption|].
    cbn [now log]. split; [lia|].
    rewrite !writes_app, writes_ready_polls. reflexivity.
Qed.

(** * The stream responder *)

Lemma wait_edges_enough (es : list edge) :
  forall (n : nat) (c : edge) (l : list (nat * obs)) (rest : list edge),
    wait_edges (length es)
      {| now := n; cur := c; pending := es ++ rest; log := l |} =
    ({| now := n + length es; cur := List.last es c; pending := rest;
        log := l |}, Some tt).
Proof.
  induction es as [|e es IH]; intros n c l rest.
  - simpl. rewrite Nat.add_0_r. reflexivity.
  - cbn [length wait_edges pending app now log]. rewrite IH.
    rewrite last_cons_default.
    replace (S n + length es)%nat with (n + S (length es))%nat by lia.
    reflexivity.
Qed.

Lemma wait_edges_short (es : list edge) :
  forall (k n : nat) (c : edge) (l : list (nat * obs)),
    (length es < k)%nat ->
    wait_edges k {| now := n; cur := c; pending := es; log := l |} =
    ({| now := n + length es; cur := List.last es c; pending := [];
        log := l |}, None).
Proof.
  induction es as [|e es IH]; intros k n c l Hk.
  - destruct k as [|k]; [simpl in Hk; lia|].
    simpl. rewrite Nat.add_0_r. reflexivity.
  - destruct k as [|k]; [simpl in Hk; lia|].
    cbn [length wait_edges pending now log]. rewrite IH by (simpl in Hk; lia).
    rewrite last_cons_default.
    replace (S n + length es)%nat with (n + S (length es))%nat by lia.
    reflexivity.
Qed.

(** C5: for [obj.cycles >= 1], [StreamResponder.drive(obj)] writes
    [ready := obj.ready] once, before any edge, and returns after exactly
    [obj.cycles] rising edges: on a run with fewer edges it is still
    suspended.  It makes no other write and reads no signal at all, so the
    value stays as written whatever the design shows on the port. *)
Theorem StreamResponder_drive_holds (obj : StreamBackpressure) (n : nat)
    (c : edge) (l : list (nat * obs)) (es rest : list edge) :
  1 <= cycles obj ->
  Z.of_nat (length es) = cycles obj ->
  runs_to sim_handle (StreamResponder_drive obj)
    {| now := n; cur := c; pending := es ++ rest; log := l |}
    (Returned tt
       {| now := n + length es; cur := List.last es c; pending := rest;
          log := l ++ [(n, ObsSet "ready" (Z.b2z (ready obj)))] |})
  /\ forall k : nat,
       (k < length es)%nat ->
       runs_to sim_handle (StreamResponder_drive obj)
         {| now := n; cur := c; pending := take k es; log := l |}
         (Suspended
            {| now := n + k; cur := List.last (take k es) c; pending := [];
               log := l ++ [(n, ObsSet "ready" (Z.b2z (ready obj)))] |}).
Proof.
  intros Hpos Hlen.
  assert (Hnat : Z.to_nat (cycles obj) = length es) by lia.
  split.
  - unfold StreamResponder_drive. run_event.
    apply runs_to_trigger. cbn [sim_handle]. rewrite Hnat.
    apply wait_edges_enough.
  - intros k Hk. unfold StreamResponder_drive. run_event.
    apply runs_to_trigger_suspended. cbn [sim_handle]. rewrite Hnat.
    rewrite wait_edges_short by (rewrite length_take; lia).
    rewrite length_take. replace (k `min` length es)%nat with k by lia.
    reflexivity.
Qed.

(** * The stream monitor *)

Lemma monitor_iteration_edge (active : Z) (n : nat) (c e : edge)
    (l : list (nat * obs)) (rest : list edge) :
  runs_to sim_handle (monitor_iteration active)
    {| now := n; cur := c; pending := e :: rest; log := l |}
    (Returned tt
       {| now := S n; cur := e; pending := rest;
          log := l ++ monitor_edge_log active (S n) e |}).
Proof.
  unfold monitor_iteration, monitor_edge_log, py_and.
  run_event. run_event.
  destruct (rst_value e =? active).
  - apply runs_to_ret.
  - destruct (truthy (io_value e "valid" 1)) eqn:Hv.
    + eapply runs_to_bind.
      * run_event. rewrite Hv. apply runs_to_trigger. reflexivity.
      * cbn beta iota. unfold record; cbn [now cur pending log].
        destruct (truthy (io_value e "ready" 1)) eqn:Hr.
        -- run_event.
           match goal with
           | |- runs_to _ _ ?s (Returned tt ?s') =>
               replace s' with
                 (record (ObsCapture {| data := io_value e "data" 0 |}) s)
           end.
           ++ apply runs_to_trigger. reflexivity.
           ++ unfold record. cbn [now cur pending log].
              rewrite <- !app_assoc. reflexivity.
        -- rewrite <- !app_assoc. apply runs_to_ret.
    + eapply runs_to_bind.
      * run_event. rewrite Hv. apply runs_to_ret.
      * cbn beta iota. rewrite Hv. rewrite <- !app_assoc. apply runs_to_ret.
Qed.

Lemma monitor_runs (active : Z) (es : list edge) :
  forall (n : nat) (c : edge) (l : list (nat * obs)),
    runs_to sim_handle (StreamMonitor_monitor active)
      {| now := n; cur := c; pending := es; log := l |}
      (Suspended
         {| now := n + length es; cur := List.last es c; pending := [];
            log := l ++ monitor_log active n es |}).
Proof.
  induction es as [|e es IH]; intros n c l; unfold StreamMonitor_monitor.
  - simpl. rewrite Nat.add_0_r, app_nil_r.
    apply runs_to_while_suspended, runs_to_bind_suspended.
    unfold monitor_iteration.
    apply runs_to_bind_suspended, runs_to_trigger_suspended. reflexivity.
  - eapply runs_to_while_again.
    + eapply runs_to_bind; [apply monitor_iteration_edge|apply runs_to_ret].
    + cbn [length monitor_log]. rewrite last_cons_default, app_assoc.
      replace (n + S (length es))%nat with (S n + length es)%nat by lia.
      apply IH.
Qed.

Lemma captures_app (l1 l2 : list (nat * obs)) :
  captures (l1 ++ l2) = captures l1 ++ captures l2.
Proof. unfold captures. apply omap_app. Qed.

Lemma captures_monitor_edge_log (active : Z) (t : nat) (e : edge) :
  captures (monitor_edge_log active t e) = pair t <$> sampled active e.
Proof.
  unfold monitor_edge_log, sampled.
  destruct (rst_value e =? active); [reflexivity|].
  destruct (truthy (io_value e "valid" 1)); [|reflexivity].
  destruct (truthy (io_value e "ready" 1)); reflexivity.
Qed.

Lemma captured_at_app (t : nat) (l1 l2 : list (nat * obs)) :
  captured_at t (l1 ++ l2) = captured_at t l1 ++ captured_at t l2.
Proof.
  unfold captured_at. rewrite captures_app, filter_app, fmap_app. reflexivity.
Qed.

Lemma captured_at_edge_log (active : Z) (t u : nat) (e : edge) :
  captured_at t (monitor_edge_log active u e) =
  if decide (u = t) then sampled active e else [].
Proof.
  unfold captured_at. rewrite captures_monitor_edge_log.
  induction (sampled active e) as [|x xs IH].
  - destruct (decide (u = t)); reflexivity.
  - rewrite fmap_cons, filter_cons. cbn [fst].
    destruct (decide (u = t)); cbn [fmap list_fmap snd]; rewrite IH.
    + destruct (decide (u = t)); [reflexivity|contradiction].
    + destruct (decide (u = t)); [contradiction|reflexivity].
Qed.

Lemma captured_at_monitor_log (active : Z) (es : list edge) :
  forall n i : nat,
    captured_at (S (n + i)) (monitor_log active n es) =
    from_option (sampled active) [] (es !! i).
Proof.
  induction es as [|e es IH]; intros n i; [reflexivity|].
  cbn [monitor_log]. rewrite captured_at_app, captured_at_edge_log.
  destruct i as [|i].
  - rewrite Nat.add_0_r. destruct (decide (S n = S n)); [|contradiction].
    cbn [lookup list_lookup from_option].
    assert (Hnone : forall (es' : list edge) (m : nat),
               (S n <= m)%nat -> captured_at (S n) (monitor_log active m es') = []).
    { clear. induction es' as [|e' es' IH']; intros m Hm; [reflexivity|].
      cbn [monitor_log]. rewrite captured_at_app, captured_at_edge_log.
      destruct (decide (S m = S n)); [lia|]. apply IH'. lia. }
    rewrite Hnone by lia. apply app_nil_r.
  - destruct (decide (S n = S (n + S i))); [lia|].
    replace (S (n + S i)) with (S (S n + i)) by lia.
    rewrite IH. reflexivity.
Qed.

(** C2: on every run of [StreamMonitor.monitor] over rising edges [es], the
    coroutine has consumed every edge and is suspended waiting for the next
    one, and for every edge number [i] the capture callback was invoked at
    that edge exactly as [sampled] says: not at all when the reset line
    equals the active value, once with [data] as visible at that same edge
    when both [valid] and [ready] read true, and not at all otherwise. *)
Theorem StreamMonitor_monitor_captures (active : Z) (c : edge)
    (es : list edge) :
  exists s' : sim,
    runs_to sim_handle (StreamMonitor_monitor active)
      {| now := 0; cur := c; pending := es; log := [] |} (Suspended s') /\
    now s' = length es /\
    pending s' = [] /\
    captured_at 0 (log s') = [] /\
    forall i : nat,
      captured_at (S i) (log s') = from_option (sampled active) [] (es !! i).
Proof.
  eexists. split; [apply monitor_runs|].
  cbn [now pending log app Nat.add]. repeat split.
  - clear. generalize 0%nat at 2. induction es as [|e es IH]; intros m; [reflexivity|].
    cbn [monitor_log]. rewrite captured_at_app, captured_at_edge_log.
    destruct (decide (S m = 0%nat)); [lia|]. apply IH.
  - intros i. apply (captured_at_monitor_log active es 0 i).
Qed.

(** * The sequences and the driver lock *)

Ltac seq_event :=
  eapply runs_to_bind;
  [ apply runs_to_trigger; reflexivity
  | cbn beta iota; unfold seq_with_random;
    cbn [seq_random lock_held seq_queue deliveries seq_trace seq_messages] ].

Section SequenceFacts.
Context {weight : Type}.
Variable one_minus : weight -> weight.

Lemma traffic_rounds (n : nat) :
  forall (r : Random) (q : list transaction) (k : nat)
         (tr : list seq_obs) (msgs : list string),
    runs_to (@seq_handle weight)
      (for_range n
         (with_lock
            (let* bits := ITree.trigger (SeqGetRandBits 32) in
             ITree.trigger
               (SeqEnqueue (TStream (new_StreamTransaction (Some bits)))
                  None))))
      {| seq_random := r; lock_held := false; seq_queue := q;
         deliveries := k; seq_trace := tr; seq_messages := msgs |}
      (Returned tt
         {| seq_random := traffic_random r n; lock_held := false;
            seq_queue := q ++ traffic_objs r n; deliveries := k;
            seq_trace := tr ++ traffic_trace (traffic_objs r n);
            seq_messages := msgs |}).
Proof.
  induction n as [|n IH]; intros r q k tr msgs.
  - cbn [for_range traffic_random traffic_objs traffic_trace flat_map].
    rewrite !app_nil_r. apply runs_to_ret.
  - cbn [for_range]. eapply runs_to_bind.
    + unfold with_lock. seq_event.
      eapply runs_to_bind.
      * seq_event. apply runs_to_trigger. reflexivity.
      * cbn beta iota.
        cbn [seq_random lock_held seq_queue deliveries seq_trace seq_messages].
        seq_event. apply runs_to_ret.
    + eapply runs_to_eq; [apply IH | reflexivity |].
      cbn [traffic_random traffic_objs traffic_trace flat_map].
      rewrite <- !app_assoc. reflexivity.
Qed.










Lemma backpressure_trace_not_per_transaction (min_interval max_interval : Z)
    (k : nat) (r : Random) :
  lock_per_transaction true false
    (backpressure_trace min_interval max_interval r (S k)) = false.
Proof. destruct k; reflexivity. Qed.


End SequenceFacts.

(** * The bench: enqueue, the model and the scoreboard reference *)

Lemma push_reference_idle (ch : channel) (obj : transaction) :
  actual ch = [] ->
  push_reference ch obj =
  inr {| reference := reference ch ++ [obj]; actual := [];
         window := window ch |}.
Proof.
  intros Hact. unfold push_reference, match_step. cbn [actual].
  rewrite Hact. reflexivity.
Qed.

Lemma enqueue_at_succ (depth : nat) (name : string) (obj : transaction)
    (tb : bench) :
  enqueue_at (S depth) name obj tb =
  let? d := get_driver name tb in
  publish
    (fun cb tb' =>
       match cb with
       | cb_model => Testbench_model name ENQUEUE obj tb'
       | cb_rand_bp => rand_bp_with (enqueue_at depth) tb'
       end)
    (subscribers_for ENQUEUE d)
    (set_driver name
       {| drv_class := drv_class d; drv_io := drv_io d;
          drv_blocking := drv_blocking d; drv_queue := drv_queue d ++ [obj];
          drv_subscribers := drv_subscribers d |} tb).
Proof. reflexivity. Qed.

Lemma Testbench_model_pushes (name : string) (obj : transaction) (tb : bench)
    (ch : channel) :
  name = "a_init" \/ name = "b_init" ->
  is_Some (drivers tb !! "a_init") ->
  is_Some (drivers tb !! "b_init") ->
  channels tb !! "x_mon" = Some ch ->
  actual ch = [] ->
  Testbench_model name ENQUEUE obj tb =
  ok (set_channel "x_mon"
        {| reference := reference ch ++ [obj]; actual := [];
           window := window ch |} tb).
Proof.
  intros Hname [da Hda] [db Hdb] Hch Hact. unfold Testbench_model, get_driver.
  rewrite Hda, Hdb. cbn [rbind ok].
  rewrite Hch, (push_reference_idle ch obj Hact).
  destruct Hname as [-> | ->]; reflexivity.
Qed.

Lemma registered_after_enqueue (tb : bench) (name other : string)
    (d : driver) :
  is_Some (drivers tb !! other) ->
  is_Some (drivers (set_driver name d tb) !! other).
Proof.
  intros Hsome. cbn [drivers set_driver].
  apply lookup_insert_is_Some'. right. exact Hsome.
Qed.

Lemma subscribers_for_queue (ev : DriverEvent) (d : driver)
    (q : list transaction) :
  subscribers_for ev
    {| drv_class := drv_class d; drv_io := drv_io d;
       drv_blocking := drv_blocking d; drv_queue := q;
       drv_subscribers := drv_subscribers d |} = subscribers_for ev d.
Proof. reflexivity. Qed.

Lemma enqueue_initiator (name : string) (obj : transaction) (tb : bench) :
  name = "a_init" \/ name = "b_init" ->
  bench_ok tb ->
  exists tb' : bench,
    enqueue name obj tb = ok tb' /\
    bench_ok tb' /\
    queue_of name tb' = queue_of name tb ++ [obj] /\
    (forall other : string, other <> name ->
       queue_of other tb' = queue_of other tb) /\
    reference_of "x_mon" tb' = reference_of "x_mon" tb ++ [obj] /\
    tb_random tb' = tb_random tb.
Proof.
  intros Hname [(da & Hda & Hsa) (db & Hdb & Hsb) (dx & Hdx & Hsx)
                  (ch & Hch & Hact)].
  assert (Hd : exists d : driver,
             drivers tb !! name = Some d /\ subscribers_for ENQUEUE d = [cb_model])
    by (destruct Hname as [-> | ->]; eauto).
  destruct Hd as (d & Hd & Hs).
  unfold enqueue. change recursion_limit with (S 999).
  rewrite enqueue_at_succ. unfold get_driver. rewrite Hd. cbn [rbind ok].
  rewrite Hs. cbn [publish].
  erewrite Testbench_model_pushes;
    [ | exact Hname
      | apply registered_after_enqueue; rewrite Hda; eauto
      | apply registered_after_enqueue; rewrite Hdb; eauto
      | exact Hch | exact Hact ].
  cbn [rbind ok]. eexists. split; [reflexivity|].
  unfold queue_of, reference_of.
  split; [split|repeat split];
    cbn [drivers channels tb_random set_channel set_driver].
  - destruct (decide (name = "a_init")) as [->|Hne].
    + rewrite lookup_insert_eq. eexists. split; [reflexivity|exact Hs].
    + rewrite lookup_insert_ne by congruence. eauto.
  - destruct (decide (name = "b_init")) as [->|Hne].
    + rewrite lookup_insert_eq. eexists. split; [reflexivity|exact Hs].
    + rewrite lookup_insert_ne by congruence. eauto.
  - rewrite lookup_insert_ne by (destruct Hname as [-> | ->]; discriminate).
    eauto.
  - rewrite lookup_insert_eq. eexists. split; reflexivity.
  - rewrite lookup_insert_eq, Hd. reflexivity.
  - intros other Hother. rewrite lookup_insert_ne by congruence. reflexivity.
  - rewrite lookup_insert_eq, Hch. reflexivity.
Qed.

Lemma enqueue_responder (obj : transaction) (tb : bench) :
  bench_ok tb ->
  exists tb' : bench,
    enqueue "x_resp" obj tb = ok tb' /\
    bench_ok tb' /\
    queue_of "x_resp" tb' = queue_of "x_resp" tb ++ [obj] /\
    (forall other : string, other <> "x_resp" ->
       queue_of other tb' = queue_of other tb) /\
    reference_of "x_mon" tb' = reference_of "x_mon" tb /\
    tb_random tb' = tb_random tb.
Proof.
  intros [(da & Hda & Hsa) (db & Hdb & Hsb) (dx & Hdx & Hsx)
            (ch & Hch & Hact)].
  unfold enqueue. change recursion_limit with (S 999).
  rewrite enqueue_at_succ. unfold get_driver. rewrite Hdx. cbn [rbind ok].
  rewrite Hsx. cbn [publish].
  eexists. split; [reflexivity|].
  unfold queue_of, reference_of.
  split; [split|repeat split];
    cbn [drivers channels tb_random set_driver].
  - rewrite lookup_insert_ne by discriminate. eauto.
  - rewrite lookup_insert_ne by discriminate. eauto.
  - rewrite lookup_insert_eq. eexists. split; [reflexivity|exact Hsx].
  - eauto.
  - rewrite lookup_insert_eq, Hdx. reflexivity.
  - intros other Hother. rewrite lookup_insert_ne by congruence. reflexivity.
Qed.

Lemma Testbench_init_ok (rng : Random) :
  exists tb : bench,
    Testbench_init rng = ok tb /\
    bench_ok tb /\
    queue_of "a_init" tb = [] /\
    queue_of "b_init" tb = [] /\
    queue_of "x_resp" tb = [] /\
    reference_of "x_mon" tb = [] /\
    (exists d : driver,
        drivers tb !! "x_resp" = Some d /\ drv_class d = StreamResponder /\
        drv_blocking d = false) /\
    tb_random tb = rng.
Proof.
  eexists. split; [reflexivity|].
  split; [|repeat split].
  - split; eexists; split; reflexivity.
  - eexists. repeat split.
Qed.

Lemma bench_ok_set_random (r : Random) (tb : bench) :
  bench_ok tb -> bench_ok (set_random r tb).
Proof. intros [Ha Hb Hx Hm]. split; assumption. Qed.

Lemma enqueue_all_references (l : list (bool * transaction)) :
  forall tb : bench,
    bench_ok tb ->
    exists tb' : bench,
      enqueue_all l tb = ok tb' /\
      bench_ok tb' /\
      reference_of "x_mon" tb' = reference_of "x_mon" tb ++ (snd <$> l) /\
      queue_of "a_init" tb' =
        queue_of "a_init" tb ++ (snd <$> filter (fun p => fst p = true) l) /\
      queue_of "b_init" tb' =
        queue_of "b_init" tb ++ (snd <$> filter (fun p => fst p = false) l).
Proof.
  induction l as [|[on_a obj] l IH]; intros tb Hok.
  - exists tb. cbn [enqueue_all fmap list_fmap filter list_filter].
    rewrite !app_nil_r. auto.
  - cbn [enqueue_all].
    destruct (enqueue_initiator (if on_a then "a_init" else "b_init") obj tb)
      as (tb1 & Henq & Hok1 & Hq & Hother & Href & _);
      [destruct on_a; auto | exact Hok |].
    rewrite Henq. cbn [rbind ok].
    destruct (IH tb1 Hok1) as (tb' & Hall & Hok' & Href' & Hqa & Hqb).
    exists tb'. split; [exact Hall|]. split; [exact Hok'|].
    rewrite Href', Href, Hqa, Hqb, fmap_cons, !filter_cons. cbn [fst snd].
    rewrite <- !app_assoc.
    destruct on_a.
    + rewrite Hq, (Hother "b_init") by discriminate.
      destruct (decide (true = true)); [|contradiction].
      destruct (decide (true = false)); [discriminate|].
      rewrite fmap_cons, <- !app_assoc. auto.
    + rewrite Hq, (Hother "a_init") by discriminate.
      destruct (decide (false = false)); [|contradiction].
      destruct (decide (false = true)); [discriminate|].
      rewrite fmap_cons, <- !app_assoc. auto.
Qed.

(** C7: in the bench built by [Testbench.__init__], whatever series of
    transactions is enqueued on [a_init] and [b_init], every enqueue
    succeeds and the reference queue of channel ["x_mon"] ends up holding
    exactly the enqueued transactions, each one as it was enqueued and in
    the order of the enqueues; the two driver queues hold their shares. *)
Theorem model_pushes_every_enqueue (rng : Random)
    (l : list (bool * transaction)) :
  exists tb0 tb : bench,
    Testbench_init rng = ok tb0 /\
    enqueue_all l tb0 = ok tb /\
    reference_of "x_mon" tb = snd <$> l /\
    queue_of "a_init" tb = snd <$> filter (fun p => fst p = true) l /\
    queue_of "b_init" tb = snd <$> filter (fun p => fst p = false) l.
Proof.
  destruct (Testbench_init_ok rng)
    as (tb0 & Hinit & Hok & Hqa & Hqb & _ & Href & _).
  destruct (enqueue_all_references l tb0 Hok)
    as (tb & Hall & _ & Href' & Hqa' & Hqb').
  exists tb0, tb. rewrite Href', Hqa', Hqb', Href, Hqa, Hqb. auto.
Qed.

(** * The packet loop of the [random] testcase *)

Lemma random_iteration_round (st : loop_state) :
  bench_ok (loop_tb st) ->
  exists (st' : loop_state) (obj : transaction),
    random_iteration st = ok st' /\
    bench_ok (loop_tb st') /\
    queue_of "x_resp" (loop_tb st') = queue_of "x_resp" (loop_tb st) /\
    ((round_on_a st st' obj /\ num_a st - num_b st < 2) \/
     (round_on_b st st' obj /\ num_b st - num_a st <= 2)).
Proof.
  intros Hok. unfold random_iteration, getrandbits, choice, next.
  cbn beta iota.
  set (obj := TStream _).
  set (flip := nth _ [true; false] false).
  assert (Hcases :
    forall (cond : bool) (rng2 : Random),
      (cond = true -> num_a st - num_b st < 2) ->
      (cond = false -> num_b st - num_a st <= 2) ->
      exists (st' : loop_state) (o : transaction),
        (if cond
         then let? tb' := enqueue "a_init" obj (set_random rng2 (loop_tb st)) in
              ok {| num_a := num_a st + 1; num_b := num_b st; loop_tb := tb' |}
         else let? tb' := enqueue "b_init" obj (set_random rng2 (loop_tb st)) in
              ok {| num_a := num_a st; num_b := num_b st + 1; loop_tb := tb' |})
        = ok st' /\
        bench_ok (loop_tb st') /\
        queue_of "x_resp" (loop_tb st') = queue_of "x_resp" (loop_tb st) /\
        ((round_on_a st st' o /\ num_a st - num_b st < 2) \/
         (round_on_b st st' o /\ num_b st - num_a st <= 2))).
  { intros cond rng2 Ht Hf. destruct cond.
    - destruct (enqueue_initiator "a_init" obj (set_random rng2 (loop_tb st)))
        as (tb' & Henq & Hok' & Hq & Hother & _ & _);
        [auto | apply bench_ok_set_random, Hok |].
      rewrite Henq. cbn [rbind ok]. eexists _, obj. split; [reflexivity|].
      cbn [loop_tb num_a num_b]. split; [exact Hok'|].
      split; [apply Hother; discriminate|].
      left. split; [|auto]. unfold round_on_a. cbn [loop_tb num_a num_b].
      rewrite Hq, (Hother "b_init") by discriminate. auto.
    - destruct (enqueue_initiator "b_init" obj (set_random rng2 (loop_tb st)))
        as (tb' & Henq & Hok' & Hq & Hother & _ & _);
        [auto | apply bench_ok_set_random, Hok |].
      rewrite Henq. cbn [rbind ok]. eexists _, obj. split; [reflexivity|].
      cbn [loop_tb num_a num_b]. split; [exact Hok'|].
      split; [apply Hother; discriminate|].
      right. split; [|auto]. unfold round_on_b. cbn [loop_tb num_a num_b].
      rewrite Hq, (Hother "a_init") by discriminate. auto. }
  destruct (num_b st >? num_a st + 2) eqn:Hgt.
  - apply (Hcases true); [lia | discriminate].
  - destruct (num_a st <? num_b st + 2) eqn:Hlt.
    + apply (Hcases flip); lia.
    + apply (Hcases false); [discriminate | lia].
Qed.

Lemma random_loop_rounds (n : nat) :
  forall st : loop_state,
    bench_ok (loop_tb st) ->
    exists st' : loop_state,
      random_loop n st = ok st' /\
      bench_ok (loop_tb st') /\
      queue_of "x_resp" (loop_tb st') = queue_of "x_resp" (loop_tb st) /\
      num_a st' + num_b st' = num_a st + num_b st + Z.of_nat n /\
      Z.of_nat (length (queue_of "a_init" (loop_tb st'))) - num_a st' =
        Z.of_nat (length (queue_of "a_init" (loop_tb st))) - num_a st /\
      Z.of_nat (length (queue_of "b_init" (loop_tb st'))) - num_b st' =
        Z.of_nat (length (queue_of "b_init" (loop_tb st))) - num_b st /\
      (-3 <= num_a st - num_b st <= 2 -> -3 <= num_a st' - num_b st' <= 2).
Proof.
  induction n as [|n IH]; intros st Hok.
  - exists st. cbn [random_loop]. split; [reflexivity|]. split; [exact Hok|].
    repeat split; lia.
  - cbn [random_loop].
    destruct (random_iteration_round st Hok)
      as (st1 & obj & Hit & Hok1 & Hx1 & Hround).
    rewrite Hit. cbn [rbind ok].
    destruct (IH st1 Hok1) as (st' & Hloop & Hok' & Hx & Hsum & Hla & Hlb & Hd).
    exists st'. split; [exact Hloop|]. split; [exact Hok'|].
    split; [congruence|].
    destruct Hround as [[(Hqa & Hqb & Ha & Hb) Hlt] | [(Hqa & Hqb & Ha & Hb) Hle]].
    + rewrite Hqa, length_app in Hla. rewrite Hqb in Hlb. cbn [length] in Hla.
      repeat split; try lia.
    + rewrite Hqb, length_app in Hlb. rewrite Hqa in Hla. cbn [length] in Hlb.
      repeat split; try lia.
Qed.

Lemma random_loop_snoc (n : nat) :
  forall st : loop_state,
    random_loop (S n) st =
    let? st' := random_loop n st in random_iteration st'.
Proof.
  induction n as [|n IH]; intros st.
  - cbn [random_loop]. unfold ok. cbn [rbind].
    destruct (random_iteration st); reflexivity.
  - change (random_loop (S (S n)) st)
      with (let? st1 := random_iteration st in random_loop (S n) st1).
    change (random_loop (S n) st)
      with (let? st1 := random_iteration st in random_loop n st1).
    destruct (random_iteration st) as [e|st1]; [reflexivity|].
    cbn [rbind]. apply IH.
Qed.

Lemma random_prologue_ok (tb : bench) :
  bench_ok tb ->
  exists st : loop_state,
    random_prologue tb = ok st /\
    bench_ok (loop_tb st) /\
    num_a st = 0 /\ num_b st = 0 /\
    queue_of "a_init" (loop_tb st) = queue_of "a_init" tb /\
    queue_of "b_init" (loop_tb st) = queue_of "b_init" tb /\
    queue_of "x_resp" (loop_tb st) =
      queue_of "x_resp" tb ++ [TBackpressure {| ready := true; cycles := 1 |}].
Proof.
  intros Hok. unfold random_prologue.
  destruct (enqueue_responder
              (TBackpressure (new_StreamBackpressure (Some true) None)) tb Hok)
    as (tb' & Henq & Hok' & Hq & Hother & _ & _).
  rewrite Henq. cbn [rbind ok]. eexists. split; [reflexivity|].
  cbn [loop_tb num_a num_b].
  rewrite Hq, !Hother by discriminate.
  split; [exact Hok'|]. repeat split.
Qed.

(** The drift the loop really keeps: A is never more than 2 ahead of B and
    B never more than 3 ahead of A. *)
Lemma random_prefix_drift (rng : Random) (n : nat) :
  exists st : loop_state,
    random_prefix rng n = ok st /\
    bench_ok (loop_tb st) /\
    num_a st + num_b st = Z.of_nat n /\
    Z.of_nat (length (queue_of "a_init" (loop_tb st))) = num_a st /\
    Z.of_nat (length (queue_of "b_init" (loop_tb st))) = num_b st /\
    queue_of "x_resp" (loop_tb st) =
      [TBackpressure {| ready := true; cycles := 1 |}] /\
    -3 <= num_a st - num_b st <= 2.
Proof.
  unfold random_prefix.
  destruct (Testbench_init_ok rng)
    as (tb0 & Hinit & Hok0 & Hqa0 & Hqb0 & Hqx0 & _).
  rewrite Hinit. cbn [rbind ok].
  destruct (random_prologue_ok tb0 Hok0)
    as (st0 & Hpro & Hok1 & Ha0 & Hb0 & Hqa1 & Hqb1 & Hqx1).
  rewrite Hpro. cbn [rbind ok].
  destruct (random_loop_rounds n st0 Hok1)
    as (st & Hloop & Hok & Hx & Hsum & Hla & Hlb & Hd).
  exists st. split; [exact Hloop|]. split; [exact Hok|].
  rewrite Hqa1, Hqa0 in Hla. rewrite Hqb1, Hqb0 in Hlb. cbn [length] in Hla, Hlb.
  rewrite Hx, Hqx1, Hqx0.
  repeat split; try lia; reflexivity.
Qed.

(** C1: with the random choice answering [False] three times in a row, the
    first three rounds of the packet loop all enqueue on driver B: the
    counters are [num_a = 0] and [num_b = 3], so B is 3 transactions ahead
    of A, one more than the drift of 2 the loop is meant to keep. *)
Theorem random_loop_b_three_ahead :
  counters (random_prefix (constant_random 1) 3) = Some (0, 3).
Proof. vm_compute. reflexivity. Qed.

Lemma random_iteration_full (st : loop_state) :
  bench_ok (loop_tb st) ->
  exists st' : loop_state,
    random_iteration st = ok st' /\
    bench_ok (loop_tb st') /\
    queue_of "x_resp" (loop_tb st') = queue_of "x_resp" (loop_tb st) /\
    reference_of "x_mon" (loop_tb st') =
      reference_of "x_mon" (loop_tb st) ++
      [TStream {| data := fst (getrandbits 32 (tb_random (loop_tb st))) |}] /\
    if num_b st >? num_a st + 2 then
      round_on_a st st'
        (TStream {| data := fst (getrandbits 32 (tb_random (loop_tb st))) |}) /\
      tb_random (loop_tb st') = snd (getrandbits 32 (tb_random (loop_tb st)))
    else if num_a st <? num_b st + 2 then
      tb_random (loop_tb st') =
        snd (choice [true; false] false
               (snd (getrandbits 32 (tb_random (loop_tb st))))) /\
      if fst (choice [true; false] false
                (snd (getrandbits 32 (tb_random (loop_tb st)))))
      then round_on_a st st'
             (TStream {| data := fst (getrandbits 32 (tb_random (loop_tb st))) |})
      else round_on_b st st'
             (TStream {| data := fst (getrandbits 32 (tb_random (loop_tb st))) |})
    else
      round_on_b st st'
        (TStream {| data := fst (getrandbits 32 (tb_random (loop_tb st))) |}) /\
      tb_random (loop_tb st') = snd (getrandbits 32 (tb_random (loop_tb st))).
Proof.
  intros Hok.
  set (obj := TStream {| data := fst (getrandbits 32 (tb_random (loop_tb st))) |}).
  set (r1 := snd (getrandbits 32 (tb_random (loop_tb st)))).
  assert (Hon_a : forall rng2 : Random,
    exists st' : loop_state,
      (let? tb' := enqueue "a_init" obj (set_random rng2 (loop_tb st)) in
       ok {| num_a := num_a st + 1; num_b := num_b st; loop_tb := tb' |})
      = ok st' /\
      bench_ok (loop_tb st') /\
      queue_of "x_resp" (loop_tb st') = queue_of "x_resp" (loop_tb st) /\
      reference_of "x_mon" (loop_tb st') =
        reference_of "x_mon" (loop_tb st) ++ [obj] /\
      round_on_a st st' obj /\ tb_random (loop_tb st') = rng2).
  { intros rng2.
    destruct (enqueue_initiator "a_init" obj (set_random rng2 (loop_tb st)))
      as (tb' & Henq & Hok' & Hq & Hother & Href & Hrng);
      [auto | apply bench_ok_set_random, Hok |].
    rewrite Henq. cbn [rbind ok]. eexists. split; [reflexivity|].
    cbn [loop_tb num_a num_b]. split; [exact Hok'|].
    split; [apply Hother; discriminate|]. split; [exact Href|].
    split; [|exact Hrng]. unfold round_on_a. cbn [loop_tb num_a num_b].
    rewrite Hq, (Hother "b_init") by discriminate. auto. }
  assert (Hon_b : forall rng2 : Random,
    exists st' : loop_state,
      (let? tb' := enqueue "b_init" obj (set_random rng2 (loop_tb st)) in
       ok {| num_a := num_a st; num_b := num_b st + 1; loop_tb := tb' |})
      = ok st' /\
      bench_ok (loop_tb st') /\
      queue_of "x_resp" (loop_tb st') = queue_of "x_resp" (loop_tb st) /\
      reference_of "x_mon" (loop_tb st') =
        reference_of "x_mon" (loop_tb st) ++ [obj] /\
      round_on_b st st' obj /\ tb_random (loop_tb st') = rng2).
  { intros rng2.
    destruct (enqueue_initiator "b_init" obj (set_random rng2 (loop_tb st)))
      as (tb' & Henq & Hok' & Hq & Hother & Href & Hrng);
      [auto | apply bench_ok_set_random, Hok |].
    rewrite Henq. cbn [rbind ok]. eexists. split; [reflexivity|].
    cbn [loop_tb num_a num_b]. split; [exact Hok'|].
    split; [apply Hother; discriminate|]. split; [exact Href|].
    split; [|exact Hrng]. unfold round_on_b. cbn [loop_tb num_a num_b].
    rewrite Hq, (Hother "a_init") by discriminate. auto. }
  unfold random_iteration.
  change (getrandbits 32 (tb_random (loop_tb st)))
    with (fst (getrandbits 32 (tb_random (loop_tb st))),
          snd (getrandbits 32 (tb_random (loop_tb st)))).
  cbn beta iota. fold obj. fold r1.
  change (TStream (new_StreamTransaction (Some (fst (getrandbits 32 (tb_random (loop_tb st)))))))
    with obj.
  destruct (num_b st >? num_a st + 2).
  - destruct (Hon_a r1) as (st' & H1 & H2 & H3 & H4 & H5 & H6).
    exists st'. auto 10.
  - destruct (num_a st <? num_b st + 2).
    + change (choice [true; false] false r1)
        with (fst (choice [true; false] false r1),
              snd (choice [true; false] false r1)).
      cbn beta iota.
      destruct (fst (choice [true; false] false r1)).
      * destruct (Hon_a (snd (choice [true; false] false r1)))
          as (st' & H1 & H2 & H3 & H4 & H5 & H6).
        exists st'. auto 10.
      * destruct (Hon_b (snd (choice [true; false] false r1)))
          as (st' & H1 & H2 & H3 & H4 & H5 & H6).
        exists st'. auto 10.
    + destruct (Hon_b r1) as (st' & H1 & H2 & H3 & H4 & H5 & H6).
      exists st'. auto 10.
Qed.

(** C10, as the code has it: the loop runs to its end for every [packets]
    and the two counters add up to [max(0, packets)] (for [packets <= 0]
    there is no round at all), each counting the queue of its driver.  In
    every round the transaction built from that round's data word is
    enqueued on exactly one of [a_init] and [b_init], the other queue being
    left as it was. *)
Theorem random_loop_splits_packets (rng : Random) (packets : Z) :
  (exists st : loop_state,
      random_prefix rng (Z.to_nat packets) = ok st /\
      num_a st + num_b st = Z.max 0 packets /\
      Z.of_nat (length (queue_of "a_init" (loop_tb st))) = num_a st /\
      Z.of_nat (length (queue_of "b_init" (loop_tb st))) = num_b st) /\
  (forall n : nat,
      (n < Z.to_nat packets)%nat ->
      exists st st' : loop_state,
        random_prefix rng n = ok st /\
        random_iteration st = ok st' /\
        random_prefix rng (S n) = ok st' /\
        let obj :=
          TStream (new_StreamTransaction
                     (Some (fst (getrandbits 32 (tb_random (loop_tb st)))))) in
        (round_on_a st st' obj \/ round_on_b st st' obj) /\
        ~ (round_on_a st st' obj /\ round_on_b st st' obj)).
Proof.
  split.
  - destruct (random_prefix_drift rng (Z.to_nat packets))
      as (st & Hrun & _ & Hsum & Hla & Hlb & _).
    exists st. repeat split; try assumption. lia.
  - intros n Hn.
    destruct (random_prefix_drift rng n) as (st & Hrun & Hok & _).
    destruct (random_iteration_full st Hok)
      as (st' & Hit & _ & _ & _ & Hside).
    exists st, st'. split; [exact Hrun|]. split; [exact Hit|]. split.
    + unfold random_prefix in *.
      destruct (Testbench_init rng) as [e|tb0]; [discriminate|].
      cbn [rbind] in *.
      destruct (random_prologue tb0) as [e|st0]; [discriminate|].
      cbn [rbind] in *.
      rewrite random_loop_snoc, Hrun. exact Hit.
    + cbn zeta. split.
      * destruct (num_b st >? num_a st + 2); [tauto|].
        destruct (num_a st <? num_b st + 2); [|tauto].
        destruct Hside as [_ Hround].
        destruct (fst (choice _ _ _)); tauto.
      * intros [(_ & _ & Ha & _) (_ & _ & Ha' & _)]. lia.
Qed.

(** C10 as it is stated fails for a negative [packets]: [range(packets)] is
    empty, so the counters add up to 0 and not to [packets]. *)
Lemma random_loop_negative_packets :
  exists st : loop_state,
    random_prefix (constant_random 1) (Z.to_nat (-2)) = ok st /\
    num_a st + num_b st = 0 /\
    num_a st + num_b st <> -2.
Proof.
  eexists. split; [vm_compute; reflexivity|].
  split; [reflexivity|discriminate].
Qed.

(** * The scoreboard channel *)

Lemma find_in_window_spec (x : transaction) (ref : list transaction) :
  forall (w k : nat),
    find_in_window x ref w = Some k ->
    (k < w)%nat /\ ref !! k = Some x /\
    forall j : nat, (j < k)%nat -> ref !! j <> Some x.
Proof.
  induction ref as [|r ref IH]; intros w k Hfind.
  - destruct w; discriminate.
  - destruct w as [|w]; [discriminate|]. cbn [find_in_window] in Hfind.
    destruct (decide (r = x)) as [->|Hne].
    + inversion Hfind; subst. repeat split; [lia|]. intros j Hj. lia.
    + destruct (find_in_window x ref w) as [k'|] eqn:Hrec; [|discriminate].
      inversion Hfind; subst.
      destruct (IH w k' Hrec) as (Hlt & Hat & Hbefore).
      repeat split; [lia | exact Hat |].
      intros [|j] Hj; cbn [lookup list_lookup].
      * congruence.
      * apply Hbefore. lia.
Qed.

Lemma find_in_window_none (x : transaction) (ref : list transaction) :
  forall w : nat,
    find_in_window x ref w = None ->
    forall j : nat, (j < w)%nat -> ref !! j <> Some x.
Proof.
  induction ref as [|r ref IH]; intros w Hfind j Hj.
  - discriminate.
  - destruct w as [|w]; [lia|]. cbn [find_in_window] in Hfind.
    destruct (decide (r = x)) as [->|Hne]; [discriminate|].
    destruct (find_in_window x ref w) as [k'|] eqn:Hrec; [discriminate|].
    destruct j as [|j]; cbn [lookup list_lookup].
    + congruence.
    + apply (IH w Hrec). lia.
Qed.

(** C6: with reference queue [[a;b;c;d]], the entries [[b;a;c;d]] observed
    under window 2 are all matched: no mismatch is reported and both queues
    end empty.  Under window 1 the entries [[c;a;b;d]] (with [c] different
    from [a]) give exactly one mismatch, the fatal one raised for [c]
    against the reference head [a].  A matching step with both queues
    non-empty does one of two things.  If some reference entry among the
    first [window] equals the actual head, it removes the nearest such
    entry, whatever its offset, together with the actual head.  If none
    does, it reports the fatal mismatch of the two heads.  With either queue
    empty the step does nothing. *)
Theorem windowed_match (a b c d : transaction) :
  c <> a ->
  (exists ch : channel,
      push_references (new_channel 2) [a; b; c; d] = inr ch /\
      reference ch = [a; b; c; d] /\
      observe_all ch [b; a; c; d] =
        ([], {| reference := []; actual := []; window := 2 |})) /\
  (exists ch : channel,
      push_references (new_channel 1) [a; b; c; d] = inr ch /\
      reference ch = [a; b; c; d] /\
      fst (observe_all ch [c; a; b; d]) =
        [{| mm_reference_head := a; mm_actual_head := c; mm_window := 1 |}]) /\
  (forall (ch : channel) (x r : transaction) (rest refs : list transaction),
      actual ch = x :: rest ->
      reference ch = r :: refs ->
      (exists k : nat,
          (k < window ch)%nat /\
          reference ch !! k = Some x /\
          (forall j : nat, (j < k)%nat -> reference ch !! j <> Some x) /\
          match_step ch =
            inr {| reference := delete k (reference ch); actual := rest;
                   window := window ch |})
      \/
      ((forall j : nat, (j < window ch)%nat -> reference ch !! j <> Some x) /\
       match_step ch =
         inl {| mm_reference_head := r; mm_actual_head := x;
                mm_window := window ch |})) /\
  (forall ch : channel,
      actual ch = [] \/ reference ch = [] -> match_step ch = inr ch).
Proof.
  intros Hca. split; [|split; [|split]].
  - eexists. split; [reflexivity|]. split; [reflexivity|].
    cbn [observe_all push_actual match_step actual reference window app
         find_in_window].
    destruct (decide (a = b)) as [->|Hab];
      repeat (cbn; rewrite ?decide_True by reflexivity;
              rewrite ?decide_False by assumption);
      reflexivity.
  - eexists. split; [reflexivity|]. split; [reflexivity|].
    cbn [observe_all push_actual match_step actual reference window app
         find_in_window].
    cbn. rewrite decide_False by congruence. reflexivity.
  - intros ch x r rest refs Hact Href.
    unfold match_step. rewrite Hact, Href. rewrite <- Href.
    destruct (find_in_window x (reference ch) (window ch)) as [k|] eqn:Hfind.
    + left. exists k.
      destruct (find_in_window_spec x (reference ch) (window ch) k Hfind)
        as (Hlt & Hat & Hbefore).
      repeat split; assumption.
    + right. split; [|reflexivity].
      apply (find_in_window_none x (reference ch) (window ch) Hfind).
  - intros ch [Hact | Href]; unfold match_step.
    + rewrite Hact. reflexivity.
    + rewrite Href. destruct (actual ch); reflexivity.
Qed.

(** * The rest of the [random] testcase *)

Lemma subscribe_post_drive_ok (cb : callback) (tb : bench) :
  bench_ok tb ->
  exists tb' : bench,
    subscribe "x_resp" POST_DRIVE cb tb = ok tb' /\
    bench_ok tb' /\
    queue_of "x_resp" tb' = queue_of "x_resp" tb.
Proof.
  intros [(da & Hda & Hsa) (db & Hdb & Hsb) (dx & Hdx & Hsx)
            (ch & Hch & Hact)].
  unfold subscribe, get_driver. rewrite Hdx. cbn [rbind ok].
  eexists. split; [reflexivity|].
  unfold queue_of. split; [split|]; cbn [drivers channels set_driver].
  - rewrite lookup_insert_ne by discriminate. eauto.
  - rewrite lookup_insert_ne by discriminate. eauto.
  - rewrite lookup_insert_eq. eexists. split; [reflexivity|].
    unfold subscribers_for in *. cbn [drv_subscribers].
    rewrite filter_app, fmap_app, Hsx. reflexivity.
  - eauto.
  - rewrite lookup_insert_eq, Hdx. reflexivity.
Qed.

Lemma rand_bp_with_draws
    (enq : string -> transaction -> bench -> result bench) (tb : bench) :
  rand_bp_with enq tb =
  enq "x_resp"
    (TBackpressure
       {| ready := fst (choice [true; false] false (tb_random tb));
          cycles := fst (randint_between 1 10
                           (snd (choice [true; false] false (tb_random tb)))) |})
    (set_random
       (snd (randint_between 1 10
               (snd (choice [true; false] false (tb_random tb))))) tb).
Proof. reflexivity. Qed.

Lemma rand_bp_ok (tb : bench) :
  bench_ok tb ->
  exists (tb' : bench) (obj : transaction),
    rand_bp tb = ok tb' /\
    queue_of "x_resp" tb' = queue_of "x_resp" tb ++ [obj].
Proof.
  intros Hok. unfold rand_bp. rewrite rand_bp_with_draws.
  match goal with
  | |- exists tb' obj, enqueue "x_resp" ?o (set_random ?r tb) = _ /\ _ =>
      destruct (enqueue_responder o (set_random r tb))
        as (tb' & Henq & _ & Hq & _);
        [apply bench_ok_set_random, Hok|];
      exists tb', o
  end.
  split; [exact Henq|exact Hq].
Qed.

Lemma random_runs (rng : Random) (packets delay : Z) :
  exists (tb0 tb : bench) (rest : list transaction),
    Testbench_init rng = ok tb0 /\
    random packets delay tb0 = ok tb /\
    queue_of "x_resp" tb =
      TBackpressure {| ready := true; cycles := 1 |} :: rest.
Proof.
  destruct (random_prefix_drift rng (Z.to_nat packets))
    as (st & Hrun & Hok & _ & _ & _ & Hqx & _).
  unfold random_prefix in Hrun.
  destruct (Testbench_init rng) as [e|tb0] eqn:Hinit; [discriminate|].
  cbn [rbind] in Hrun.
  destruct (random_prologue tb0) as [e|st0] eqn:Hpro; [discriminate|].
  cbn [rbind] in Hrun.
  destruct (subscribe_post_drive_ok cb_rand_bp (loop_tb st) Hok)
    as (tb1 & Hsub & Hok1 & Hq1).
  destruct (rand_bp_ok tb1 Hok1) as (tb2 & obj & Hbp & Hq2).
  exists tb0, (register_coroutine "wait" delay tb2), [obj].
  split; [reflexivity|]. split.
  - unfold random. rewrite Hpro. cbn [rbind].
    rewrite Hrun. cbn [rbind ok]. rewrite Hsub. cbn [rbind ok].
    rewrite Hbp. reflexivity.
  - unfold queue_of in *. cbn [register_coroutine drivers].
    rewrite Hq2, Hq1, Hqx. reflexivity.
Qed.

(** C9: [StreamBackpressure] built without [cycles] has [cycles = 1] and
    without [ready] has [ready = True]; [StreamTransaction] built without
    [data] has [data = 0].  The first transaction the testcase puts on
    [x_resp] is [StreamBackpressure(ready=True)], that is [ready = True] and
    [cycles = 1], and [StreamResponder.drive] on it writes [ready := 1] and
    returns after exactly one rising edge: with an edge to come it returns
    at that edge, with none it is still suspended. *)
Theorem defaults_and_initial_backpressure (rng : Random) (packets delay : Z) :
  (forall r : option bool, cycles (new_StreamBackpressure r None) = 1) /\
  (forall c : option Z, ready (new_StreamBackpressure None c) = true) /\
  data (new_StreamTransaction None) = 0 /\
  (exists (tb0 tb : bench),
      Testbench_init rng = ok tb0 /\
      random packets delay tb0 = ok tb /\
      head (queue_of "x_resp" tb) =
        Some (TBackpressure (new_StreamBackpressure (Some true) None)) /\
      new_StreamBackpressure (Some true) None =
        {| ready := true; cycles := 1 |}) /\
  (forall (n : nat) (c e : edge) (l : list (nat * obs)) (rest : list edge),
      runs_to sim_handle
        (StreamResponder_drive (new_StreamBackpressure (Some true) None))
        {| now := n; cur := c; pending := e :: rest; log := l |}
        (Returned tt {| now := S n; cur := e; pending := rest;
                        log := l ++ [(n, ObsSet "ready" 1)] |})) /\
  (forall (n : nat) (c : edge) (l : list (nat * obs)),
      runs_to sim_handle
        (StreamResponder_drive (new_StreamBackpressure (Some true) None))
        {| now := n; cur := c; pending := []; log := l |}
        (Suspended {| now := n; cur := c; pending := [];
                      log := l ++ [(n, ObsSet "ready" 1)] |})).
Proof.
  split; [reflexivity|]. split; [reflexivity|]. split; [reflexivity|].
  split; [|split].
  - destruct (random_runs rng packets delay)
      as (tb0 & tb & rest & Hinit & Hrun & Hq).
    exists tb0, tb. rewrite Hq. auto.
  - intros n c e l rest. unfold StreamResponder_drive. run_event.
    apply runs_to_trigger. reflexivity.
  - intros n c l. unfold StreamResponder_drive. run_event.
    apply runs_to_trigger_suspended. reflexivity.
Qed.



(** * The theorems at sample inputs *)

(** [StreamInitiator_drive_handshake] on a run whose third edge is the
    first to show [ready]: the data word 7 is accepted at edge 3. *)
Lemma StreamInitiator_drive_handshake_witness :
  runs_to sim_handle (StreamInitiator_drive {| data := 7 |})
    {| now := 0; cur := sample_edge 0 1 0;
       pending := [sample_edge 1 0 7; sample_edge 1 0 7; sample_edge 1 1 7;
                   sample_edge 0 0 0];
       log := [] |}
    (Returned tt
       {| now := 3; cur := sample_edge 1 1 7; pending := [sample_edge 0 0 0];
          log := [(0, ObsSet "data" 7); (0, ObsSet "valid" 1);
                  (1, ObsGet "ready" 0); (2, ObsGet "ready" 0);
                  (3, ObsGet "ready" 1); (3, ObsSet "valid" 0)]%nat |}) /\
  runs_to sim_handle (StreamInitiator_drive {| data := 7 |})
    {| now := 0; cur := sample_edge 0 1 0; pending := [sample_edge 1 0 7];
       log := [] |}
    (Suspended
       {| now := 1; cur := sample_edge 1 0 7; pending := [];
          log := [(0, ObsSet "data" 7); (0, ObsSet "valid" 1);
                  (1, ObsGet "ready" 0)]%nat |}).
Proof.
  destruct (StreamInitiator_drive_handshake {| data := 7 |} 0
              (sample_edge 0 1 0) []
              [sample_edge 1 0 7; sample_edge 1 0 7] (sample_edge 1 1 7)
              [sample_edge 0 0 0])
    as [Haccepted Hbefore].
  - repeat constructor.
  - reflexivity.
  - split; [exact Haccepted | exact (Hbefore 1%nat)].
Defined.

(** [StreamResponder_drive_holds] for [ready = False] held for 2 cycles. *)
Lemma StreamResponder_drive_holds_witness :
  runs_to sim_handle
    (StreamResponder_drive {| ready := false; cycles := 2 |})
    {| now := 0; cur := sample_edge 0 0 0;
       pending := [sample_edge 1 1 5; sample_edge 1 1 6; sample_edge 1 1 7];
       log := [] |}
    (Returned tt
       {| now := 2; cur := sample_edge 1 1 6; pending := [sample_edge 1 1 7];
          log := [(0%nat, ObsSet "ready" 0)] |}) /\
  runs_to sim_handle
    (StreamResponder_drive {| ready := false; cycles := 2 |})
    {| now := 0; cur := sample_edge 0 0 0; pending := [sample_edge 1 1 5];
       log := [] |}
    (Suspended
       {| now := 1; cur := sample_edge 1 1 5; pending := [];
          log := [(0%nat, ObsSet "ready" 0)] |}).
Proof.
  destruct (StreamResponder_drive_holds {| ready := false; cycles := 2 |} 0
              (sample_edge 0 0 0) []
              [sample_edge 1 1 5; sample_edge 1 1 6] [sample_edge 1 1 7])
    as [Hreturns Hbefore].
  - cbn [cycles]. lia.
  - reflexivity.
  - split; [exact Hreturns|]. apply (Hbefore 1%nat). cbn [length]. lia.
Defined.

(** [windowed_match] on four distinct data words: the two runs, a step that
    finds its match at offset 1, and a step that finds none in window 1. *)
Lemma windowed_match_witness :
  observe_all
    {| reference := [sample_txn 1; sample_txn 2; sample_txn 3; sample_txn 4];
       actual := []; window := 2 |}
    [sample_txn 2; sample_txn 1; sample_txn 3; sample_txn 4] =
    ([], {| reference := []; actual := []; window := 2 |}) /\
  fst (observe_all
         {| reference := [sample_txn 1; sample_txn 2; sample_txn 3; sample_txn 4];
            actual := []; window := 1 |}
         [sample_txn 3; sample_txn 1; sample_txn 2; sample_txn 4]) =
    [{| mm_reference_head := sample_txn 1; mm_actual_head := sample_txn 3;
        mm_window := 1 |}] /\
  match_step
    {| reference := [sample_txn 1; sample_txn 2; sample_txn 3; sample_txn 4];
       actual := [sample_txn 2]; window := 2 |} =
    inr {| reference := [sample_txn 1; sample_txn 3; sample_txn 4];
           actual := []; window := 2 |} /\
  match_step
    {| reference := [sample_txn 1; sample_txn 2; sample_txn 3; sample_txn 4];
       actual := [sample_txn 3]; window := 1 |} =
    inl {| mm_reference_head := sample_txn 1; mm_actual_head := sample_txn 3;
           mm_window := 1 |}.
Proof.
  destruct (windowed_match (sample_txn 1) (sample_txn 2) (sample_txn 3)
              (sample_txn 4)) as (Hin & Hout & Hstep & _).
  - discriminate.
  - destruct Hin as (ch2 & Hpush2 & _ & Hrun2).
    destruct Hout as (ch1 & Hpush1 & _ & Hrun1).
    inversion Hpush2; subst ch2. inversion Hpush1; subst ch1.
    split; [exact Hrun2|]. split; [exact Hrun1|]. split.
    + destruct (Hstep
                  {| reference := [sample_txn 1; sample_txn 2; sample_txn 3;
                                   sample_txn 4];
                     actual := [sample_txn 2]; window := 2 |}
                  (sample_txn 2) (sample_txn 1) []
                  [sample_txn 2; sample_txn 3; sample_txn 4]
                  eq_refl eq_refl)
        as [(k & Hlt & Hat & _ & Hm) | (Hnone & _)].
      * destruct k as [|[|k]].
        -- discriminate Hat.
        -- exact Hm.
        -- cbn [window] in Hlt. lia.
      * exfalso. apply (Hnone 1%nat); [cbn [window]; lia | reflexivity].
    + destruct (Hstep
                  {| reference := [sample_txn 1; sample_txn 2; sample_txn 3;
                                   sample_txn 4];
                     actual := [sample_txn 3]; window := 1 |}
                  (sample_txn 3) (sample_txn 1) []
                  [sample_txn 2; sample_txn 3; sample_txn 4]
                  eq_refl eq_refl)
        as [(k & Hlt & Hat & _) | (_ & Hm)].
      * destruct k as [|k]; [discriminate Hat | cbn [window] in Hlt; lia].
      * exact Hm.
Defined.

(** [random_loop_splits_packets] for 4 packets and a generator that always
    draws 1: the end of the loop, and its third round. *)
Lemma random_loop_splits_packets_witness :
  (exists st : loop_state,
      random_prefix (constant_random 1) 4 = ok st /\
      num_a st + num_b st = 4 /\
      Z.of_nat (length (queue_of "a_init" (loop_tb st))) = num_a st /\
      Z.of_nat (length (queue_of "b_init" (loop_tb st))) = num_b st) /\
  (exists st st' : loop_state,
      random_prefix (constant_random 1) 2 = ok st /\
      random_iteration st = ok st' /\
      random_prefix (constant_random 1) 3 = ok st' /\
      let obj :=
        TStream (new_StreamTransaction
                   (Some (fst (getrandbits 32 (tb_random (loop_tb st)))))) in
      (round_on_a st st' obj \/ round_on_b st st' obj) /\
      ~ (round_on_a st st' obj /\ round_on_b st st' obj)).
Proof.
  destruct (random_loop_splits_packets (constant_random 1) 4) as [Hend Hround].
  split; [exact Hend|]. apply (Hround 2%nat). cbn. lia.
Defined.


(** * More on the packet loop *)

Lemma getrandbits_range (k : Z) (r : Random) :
  0 <= k -> 0 <= fst (getrandbits k r) < 2 ^ k.
Proof.
  intros Hk. unfold getrandbits, next. cbn [fst].
  apply Z.mod_pos_bound. apply Z.pow_pos_nonneg; lia.
Qed.

Lemma randint_range (a b : Z) (r : Random) :
  a <= b -> a <= fst (randint_between a b r) <= b.
Proof.
  intros Hab. unfold randint_between, next. cbn [fst].
  pose proof (Z.mod_pos_bound (draws r (drawn r)) (b - a + 1)). lia.
Qed.

Lemma enqueue_frame (name : string) (obj : transaction) (tb : bench) :
  name = "a_init" \/ name = "b_init" \/ name = "x_resp" ->
  bench_ok tb ->
  exists tb' : bench,
    enqueue name obj tb = ok tb' /\
    coroutines tb' = coroutines tb /\
    monitors tb' = monitors tb /\
    forall (other : string) (ev : DriverEvent),
      subscribers_of other ev tb' = subscribers_of other ev tb.
Proof.
  intros Hname Hok.
  assert (Hframe : forall (d : driver) (tb1 : bench),
    drivers tb !! name = Some d ->
    coroutines tb1 = coroutines tb -> monitors tb1 = monitors tb ->
    drivers tb1 =
      <[name := {| drv_class := drv_class d; drv_io := drv_io d;
                   drv_blocking := drv_blocking d;
                   drv_queue := drv_queue d ++ [obj];
                   drv_subscribers := drv_subscribers d |}]> (drivers tb) ->
    coroutines tb1 = coroutines tb /\ monitors tb1 = monitors tb /\
    forall (other : string) (ev : DriverEvent),
      subscribers_of other ev tb1 = subscribers_of other ev tb).
  { intros d tb1 Hd Hc Hm Hdrv. split; [exact Hc|]. split; [exact Hm|].
    intros other ev. unfold subscribers_of. rewrite Hdrv.
    destruct (decide (name = other)) as [<-|Hne].
    - rewrite lookup_insert_eq, Hd. reflexivity.
    - rewrite lookup_insert_ne by exact Hne. reflexivity. }
  destruct Hname as [Hname | [Hname | Hname]].
  - destruct (enqueue_initiator name obj tb) as (tb' & Henq & _);
      [auto | exact Hok |].
    exists tb'. split; [exact Henq|].
    destruct Hok as [(da & Hda & Hsa) (db & Hdb & _) _ (ch & Hch & Hact)].
    subst name. unfold enqueue in Henq. change recursion_limit with (S 999) in Henq.
    rewrite enqueue_at_succ in Henq. unfold get_driver in Henq.
    rewrite Hda in Henq. cbn [rbind ok] in Henq. rewrite Hsa in Henq.
    cbn [publish] in Henq.
    erewrite Testbench_model_pushes in Henq;
      [ | auto
        | apply registered_after_enqueue; rewrite Hda; eauto
        | apply registered_after_enqueue; rewrite Hdb; eauto
        | exact Hch | exact Hact ].
    cbn [rbind ok] in Henq. inversion Henq; subst tb'.
    apply (Hframe da); [exact Hda | reflexivity | reflexivity | reflexivity].
  - destruct (enqueue_initiator name obj tb) as (tb' & Henq & _);
      [auto | exact Hok |].
    exists tb'. split; [exact Henq|].
    destruct Hok as [(da & Hda & _) (db & Hdb & Hsb) _ (ch & Hch & Hact)].
    subst name. unfold enqueue in Henq. change recursion_limit with (S 999) in Henq.
    rewrite enqueue_at_succ in Henq. unfold get_driver in Henq.
    rewrite Hdb in Henq. cbn [rbind ok] in Henq. rewrite Hsb in Henq.
    cbn [publish] in Henq.
    erewrite Testbench_model_pushes in Henq;
      [ | auto
        | apply registered_after_enqueue; rewrite Hda; eauto
        | apply registered_after_enqueue; rewrite Hdb; eauto
        | exact Hch | exact Hact ].
    cbn [rbind ok] in Henq. inversion Henq; subst tb'.
    apply (Hframe db); [exact Hdb | reflexivity | reflexivity | reflexivity].
  - destruct (enqueue_responder obj tb Hok) as (tb' & Henq & _).
    subst name. exists tb'. split; [exact Henq|].
    destruct Hok as [_ _ (dx & Hdx & Hsx) _].
    unfold enqueue in Henq. change recursion_limit with (S 999) in Henq.
    rewrite enqueue_at_succ in Henq. unfold get_driver in Henq.
    rewrite Hdx in Henq. cbn [rbind ok] in Henq. rewrite Hsx in Henq.
    cbn [publish] in Henq. inversion Henq; subst tb'.
    apply (Hframe dx); [exact Hdx | reflexivity | reflexivity | reflexivity].
Qed.

Lemma random_iteration_frame (st st' : loop_state) :
  bench_ok (loop_tb st) ->
  random_iteration st = ok st' ->
  coroutines (loop_tb st') = coroutines (loop_tb st) /\
  forall (other : string) (ev : DriverEvent),
    subscribers_of other ev (loop_tb st') = subscribers_of other ev (loop_tb st).
Proof.
  intros Hok. unfold random_iteration.
  destruct (getrandbits 32 (tb_random (loop_tb st))) as [bits r1].
  set (obj := TStream _).
  assert (Hside : forall (name : string) (rng2 : Random) (na nb : Z),
    name = "a_init" \/ name = "b_init" ->
    (let? tb' := enqueue name obj (set_random rng2 (loop_tb st)) in
     ok {| num_a := na; num_b := nb; loop_tb := tb' |}) = ok st' ->
    coroutines (loop_tb st') = coroutines (loop_tb st) /\
    forall (other : string) (ev : DriverEvent),
      subscribers_of other ev (loop_tb st') =
      subscribers_of other ev (loop_tb st)).
  { intros name rng2 na nb Hname Hrun.
    destruct (enqueue_frame name obj (set_random rng2 (loop_tb st)))
      as (tb' & Henq & Hc & _ & Hs);
      [tauto | apply bench_ok_set_random, Hok |].
    rewrite Henq in Hrun. cbn [rbind ok] in Hrun. inversion Hrun; subst st'.
    cbn [loop_tb]. split; [exact Hc | exact Hs]. }
  destruct (num_b st >? num_a st + 2).
  - apply Hside. auto.
  - destruct (num_a st <? num_b st + 2).
    + destruct (choice [true; false] false r1) as [[|] r2]; apply Hside; auto.
    + apply Hside. auto.
Qed.

Lemma interleaved_lengths {A : Type} (l1 l2 l : list A) :
  interleaved l1 l2 l -> length l = (length l1 + length l2)%nat.
Proof.
  induction 1 as [|x l1 l2 l _ IH|x l1 l2 l _ IH]; cbn [length]; lia.
Qed.

Lemma interleaved_Forall {A : Type} (P : A -> Prop) (l1 l2 l : list A) :
  interleaved l1 l2 l -> Forall P l -> Forall P l1 /\ Forall P l2.
Proof.
  induction 1 as [|x l1 l2 l _ IH|x l1 l2 l _ IH]; intros Hall.
  - split; constructor.
  - inversion Hall as [|? ? Hx Hl]; subst. destruct (IH Hl) as [HP1 HP2].
    split; [constructor|]; assumption.
  - inversion Hall as [|? ? Hx Hl]; subst. destruct (IH Hl) as [HP1 HP2].
    split; [|constructor]; assumption.
Qed.

Lemma random_loop_merge (n : nat) :
  forall st : loop_state,
    bench_ok (loop_tb st) ->
    exists (st' : loop_state) (na nb nr : list transaction),
      random_loop n st = ok st' /\
      bench_ok (loop_tb st') /\
      queue_of "a_init" (loop_tb st') = queue_of "a_init" (loop_tb st) ++ na /\
      queue_of "b_init" (loop_tb st') = queue_of "b_init" (loop_tb st) ++ nb /\
      reference_of "x_mon" (loop_tb st') =
        reference_of "x_mon" (loop_tb st) ++ nr /\
      interleaved na nb nr /\
      Forall stream_word nr /\
      length nr = n /\
      coroutines (loop_tb st') = coroutines (loop_tb st) /\
      (forall (other : string) (ev : DriverEvent),
          subscribers_of other ev (loop_tb st') =
          subscribers_of other ev (loop_tb st)) /\
      (drawn (tb_random (loop_tb st)) + n <= drawn (tb_random (loop_tb st'))
       <= drawn (tb_random (loop_tb st)) + 2 * n)%nat.
Proof.
  induction n as [|n IH]; intros st Hok.
  - exists st, [], [], []. cbn [random_loop]. rewrite !app_nil_r.
    split; [reflexivity|]. split; [exact Hok|].
    repeat split; try constructor; lia.
  - cbn [random_loop].
    destruct (random_iteration_full st Hok)
      as (st1 & Hit & Hok1 & _ & Href & Hside).
    destruct (random_iteration_frame st st1 Hok Hit) as [Hc1 Hs1].
    rewrite Hit. cbn [rbind ok].
    destruct (IH st1 Hok1)
      as (st' & na & nb & nr & Hloop & Hok' & Hqa & Hqb & Hr & Hint & Hall
          & Hlen & Hc & Hs & Hd).
    set (obj := TStream {| data := fst (getrandbits 32 (tb_random (loop_tb st))) |})
      in *.
    assert (Hword : stream_word obj)
      by (apply (getrandbits_range 32); lia).
    assert (Hcase :
      (round_on_a st st1 obj \/ round_on_b st st1 obj) /\
      (S (drawn (tb_random (loop_tb st))) <= drawn (tb_random (loop_tb st1))
       <= S (S (drawn (tb_random (loop_tb st)))))%nat).
    { destruct (num_b st >? num_a st + 2).
      - destruct Hside as [Hround ->]. split; [auto|]. cbn. lia.
      - destruct (num_a st <? num_b st + 2).
        + destruct Hside as [-> Hround]. split.
          * destruct (fst (choice _ _ _)); auto.
          * cbn. lia.
        + destruct Hside as [Hround ->]. split; [auto|]. cbn. lia. }
    destruct Hcase as [[(Ha & Hb & _) | (Ha & Hb & _)] Hdraw].
    + exists st', (obj :: na), nb, (obj :: nr).
      split; [exact Hloop|]. split; [exact Hok'|].
      rewrite Hqa, Hqb, Hr, Ha, Hb, Href, <- !app_assoc.
      repeat split; try reflexivity.
      * constructor. exact Hint.
      * constructor; assumption.
      * cbn [length]. lia.
      * congruence.
      * intros other ev. rewrite Hs. apply Hs1.
      * lia.
      * lia.
    + exists st', na, (obj :: nb), (obj :: nr).
      split; [exact Hloop|]. split; [exact Hok'|].
      rewrite Hqa, Hqb, Hr, Ha, Hb, Href, <- !app_assoc.
      repeat split; try reflexivity.
      * constructor. exact Hint.
      * constructor; assumption.
      * cbn [length]. lia.
      * congruence.
      * intros other ev. rewrite Hs. apply Hs1.
      * lia.
      * lia.
Qed.

Lemma Testbench_init_shape (rng : Random) :
  exists tb : bench,
    Testbench_init rng = ok tb /\
    bench_ok tb /\
    queue_of "a_init" tb = [] /\
    queue_of "b_init" tb = [] /\
    queue_of "x_resp" tb = [] /\
    reference_of "x_mon" tb = [] /\
    coroutines tb = [] /\
    subscribers_of "x_resp" POST_DRIVE tb = [] /\
    tb_random tb = rng.
Proof.
  eexists. split; [reflexivity|].
  split; [|repeat split].
  split; eexists; split; reflexivity.
Qed.

Lemma random_start (rng : Random) :
  exists (tb0 : bench) (st0 : loop_state),
    Testbench_init rng = ok tb0 /\
    random_prologue tb0 = ok st0 /\
    bench_ok (loop_tb st0) /\
    num_a st0 = 0 /\ num_b st0 = 0 /\
    queue_of "a_init" (loop_tb st0) = [] /\
    queue_of "b_init" (loop_tb st0) = [] /\
    queue_of "x_resp" (loop_tb st0) =
      [TBackpressure {| ready := true; cycles := 1 |}] /\
    reference_of "x_mon" (loop_tb st0) = [] /\
    coroutines (loop_tb st0) = [] /\
    subscribers_of "x_resp" POST_DRIVE (loop_tb st0) = [] /\
    tb_random (loop_tb st0) = rng.
Proof.
  destruct (Testbench_init_shape rng)
    as (tb0 & Hinit & Hok0 & Hqa & Hqb & Hqx & Href & Hco & Hsub & Hrng).
  exists tb0. unfold random_prologue.
  set (bp := TBackpressure (new_StreamBackpressure (Some true) None)).
  destruct (enqueue_responder bp tb0 Hok0)
    as (tb1 & Henq & Hok1 & Hq & Hother & Href1 & Hrng1).
  destruct (enqueue_frame "x_resp" bp tb0) as (tb1' & Henq' & Hco1 & _ & Hsub1);
    [auto | exact Hok0 |].
  rewrite Henq in Henq'. inversion Henq'; subst tb1'.
  rewrite Henq. cbn [rbind ok]. eexists. split; [exact Hinit|].
  split; [reflexivity|]. cbn [loop_tb num_a num_b].
  rewrite Hq, !Hother, Href1, Hco1, Hsub1, Hrng1 by discriminate.
  rewrite Hqa, Hqb, Hqx, Href, Hco, Hsub, Hrng.
  split; [exact Hok1|]. repeat split.
Qed.

Lemma random_prefix_merge (rng : Random) (n : nat) :
  exists st : loop_state,
    random_prefix rng n = ok st /\
    bench_ok (loop_tb st) /\
    interleaved (queue_of "a_init" (loop_tb st)) (queue_of "b_init" (loop_tb st))
      (reference_of "x_mon" (loop_tb st)) /\
    Forall stream_word (reference_of "x_mon" (loop_tb st)) /\
    length (reference_of "x_mon" (loop_tb st)) = n /\
    coroutines (loop_tb st) = [] /\
    subscribers_of "x_resp" POST_DRIVE (loop_tb st) = [] /\
    (drawn rng + n <= drawn (tb_random (loop_tb st)) <= drawn rng + 2 * n)%nat.
Proof.
  destruct (random_start rng)
    as (tb0 & st0 & Hinit & Hpro & Hok0 & _ & _ & Hqa & Hqb & _ & Href & Hco
        & Hsub & Hrng).
  destruct (random_loop_merge n st0 Hok0)
    as (st & na & nb & nr & Hloop & Hok & Hqa' & Hqb' & Hr & Hint & Hall
        & Hlen & Hc & Hs & Hd).
  exists st. unfold random_prefix. rewrite Hinit. cbn [rbind ok].
  rewrite Hpro. cbn [rbind ok]. split; [exact Hloop|]. split; [exact Hok|].
  rewrite Hqa', Hqb', Hr, Hqa, Hqb, Href, Hc, Hs, Hco, Hsub. cbn [app].
  rewrite Hrng in Hd. auto 10.
Qed.

(** X1: after any number of rounds of the packet loop, the queue of
    [a_init] is at most 2 transactions longer than the queue of [b_init] and
    at most 3 shorter, and both bounds are reached. *)
Theorem random_loop_drift_bounds (rng : Random) (n : nat) :
  (exists st : loop_state,
      random_prefix rng n = ok st /\
      -3 <= Z.of_nat (length (queue_of "a_init" (loop_tb st)))
            - Z.of_nat (length (queue_of "b_init" (loop_tb st))) <= 2) /\
  (exists st : loop_state,
      random_prefix (constant_random 0) 2 = ok st /\
      Z.of_nat (length (queue_of "a_init" (loop_tb st)))
      - Z.of_nat (length (queue_of "b_init" (loop_tb st))) = 2) /\
  (exists st : loop_state,
      random_prefix (constant_random 1) 3 = ok st /\
      Z.of_nat (length (queue_of "a_init" (loop_tb st)))
      - Z.of_nat (length (queue_of "b_init" (loop_tb st))) = -3).
Proof.
  split; [|split].
  - destruct (random_prefix_drift rng n)
      as (st & Hrun & _ & _ & Hla & Hlb & _ & Hd).
    exists st. split; [exact Hrun|]. lia.
  - eexists. split; [vm_compute; reflexivity|]. vm_compute. reflexivity.
  - eexists. split; [vm_compute; reflexivity|]. vm_compute. reflexivity.
Qed.

(** X2: in every round of the packet loop the random choice is drawn only
    when it matters.  When B is more than 2 ahead the transaction goes to
    [a_init], and when A is 2 or more ahead it goes to [b_init], in both
    cases after a single draw (the data word); otherwise a second draw is
    made for [tb.random.choice((True, False))] and decides: [a_init] on
    [True], [b_init] on [False]. *)
Theorem random_iteration_lazy_choice (rng : Random) (n : nat) :
  exists st st' : loop_state,
    random_prefix rng n = ok st /\
    random_iteration st = ok st' /\
    let r := tb_random (loop_tb st) in
    let r' := tb_random (loop_tb st') in
    let obj := TStream {| data := fst (getrandbits 32 r) |} in
    draws r' = draws r /\
    if num_b st >? num_a st + 2 then
      round_on_a st st' obj /\ drawn r' = S (drawn r)
    else if num_a st <? num_b st + 2 then
      drawn r' = S (S (drawn r)) /\
      if fst (choice [true; false] false (snd (getrandbits 32 r)))
      then round_on_a st st' obj
      else round_on_b st st' obj
    else
      round_on_b st st' obj /\ drawn r' = S (drawn r).
Proof.
  destruct (random_prefix_drift rng n) as (st & Hrun & Hok & _).
  destruct (random_iteration_full st Hok) as (st' & Hit & _ & _ & _ & Hside).
  exists st, st'. split; [exact Hrun|]. split; [exact Hit|].
  cbn zeta.
  destruct (num_b st >? num_a st + 2).
  - destruct Hside as [Hround ->].
    split; [reflexivity|]. split; [exact Hround|reflexivity].
  - destruct (num_a st <? num_b st + 2).
    + destruct Hside as [-> Hround].
      split; [reflexivity|]. split; [reflexivity|]. exact Hround.
    + destruct Hside as [Hround ->].
      split; [reflexivity|]. split; [exact Hround|reflexivity].
Qed.

(** X3: after any number [n] of rounds of the packet loop, the reference
    queue of channel ["x_mon"] holds exactly [n] transactions and is a merge
    of the queues of [a_init] and [b_init] that keeps the order of each. *)
Theorem random_loop_reference_is_merge (rng : Random) (n : nat) :
  exists st : loop_state,
    random_prefix rng n = ok st /\
    interleaved (queue_of "a_init" (loop_tb st)) (queue_of "b_init" (loop_tb st))
      (reference_of "x_mon" (loop_tb st)) /\
    length (reference_of "x_mon" (loop_tb st)) = n /\
    (length (queue_of "a_init" (loop_tb st)) +
     length (queue_of "b_init" (loop_tb st)) = n)%nat.
Proof.
  destruct (random_prefix_merge rng n)
    as (st & Hrun & _ & Hint & _ & Hlen & _).
  exists st. split; [exact Hrun|]. split; [exact Hint|]. split; [exact Hlen|].
  rewrite <- (interleaved_lengths _ _ _ Hint). exact Hlen.
Qed.

(** X4: every transaction the packet loop enqueues, on either initiator and
    as a reference, is a stream transaction whose data word lies in
    [0, 2^32); the loop makes at least one and at most two draws per
    round. *)
Theorem random_loop_words (rng : Random) (n : nat) :
  exists st : loop_state,
    random_prefix rng n = ok st /\
    Forall stream_word (queue_of "a_init" (loop_tb st)) /\
    Forall stream_word (queue_of "b_init" (loop_tb st)) /\
    Forall stream_word (reference_of "x_mon" (loop_tb st)) /\
    (drawn rng + n <= drawn (tb_random (loop_tb st)) <= drawn rng + 2 * n)%nat.
Proof.
  destruct (random_prefix_merge rng n)
    as (st & Hrun & _ & Hint & Hall & _ & _ & _ & Hd).
  destruct (interleaved_Forall stream_word _ _ _ Hint Hall) as [Ha Hb].
  exists st. auto 10.
Qed.

(** * The end of the [random] testcase *)

Lemma subscribe_post_drive_full (cb : callback) (tb : bench) :
  bench_ok tb ->
  exists tb' : bench,
    subscribe "x_resp" POST_DRIVE cb tb = ok tb' /\
    bench_ok tb' /\
    (forall name : string, queue_of name tb' = queue_of name tb) /\
    reference_of "x_mon" tb' = reference_of "x_mon" tb /\
    coroutines tb' = coroutines tb /\
    tb_random tb' = tb_random tb /\
    subscribers_of "x_resp" POST_DRIVE tb' =
      subscribers_of "x_resp" POST_DRIVE tb ++ [cb].
Proof.
  intros Hok.
  destruct (subscribe_post_drive_ok cb tb Hok) as (tb' & Hsub & Hok' & _).
  exists tb'. split; [exact Hsub|]. split; [exact Hok'|].
  destruct Hok as [_ _ (dx & Hdx & Hsx) _].
  unfold subscribe, get_driver in Hsub. rewrite Hdx in Hsub.
  cbn [rbind ok] in Hsub. inversion Hsub; subst tb'.
  unfold queue_of, reference_of, subscribers_of.
  cbn [drivers channels coroutines tb_random set_driver].
  repeat split.
  - intros name. destruct (decide ("x_resp" = name)) as [<-|Hne].
    + rewrite lookup_insert_eq, Hdx. reflexivity.
    + rewrite lookup_insert_ne by exact Hne. reflexivity.
  - rewrite lookup_insert_eq, Hdx. cbn [from_option].
    unfold subscribers_for. cbn [drv_subscribers].
    rewrite filter_app, fmap_app. reflexivity.
Qed.

Lemma rand_bp_full (tb : bench) :
  bench_ok tb ->
  exists (tb' : bench) (b : bool) (c : Z),
    rand_bp tb = ok tb' /\
    1 <= c <= 10 /\
    queue_of "x_resp" tb' =
      queue_of "x_resp" tb ++ [TBackpressure {| ready := b; cycles := c |}] /\
    queue_of "a_init" tb' = queue_of "a_init" tb /\
    queue_of "b_init" tb' = queue_of "b_init" tb /\
    reference_of "x_mon" tb' = reference_of "x_mon" tb /\
    coroutines tb' = coroutines tb /\
    (forall (other : string) (ev : DriverEvent),
        subscribers_of other ev tb' = subscribers_of other ev tb) /\
    drawn (tb_random tb') = S (S (drawn (tb_random tb))).
Proof.
  intros Hok. unfold rand_bp. rewrite rand_bp_with_draws.
  set (b := fst (choice [true; false] false (tb_random tb))).
  set (r1 := snd (choice [true; false] false (tb_random tb))).
  set (obj := TBackpressure _).
  destruct (enqueue_responder obj
              (set_random (snd (randint_between 1 10 r1)) tb))
    as (tb' & Henq & _ & Hq & Hother & Href & Hrng);
    [apply bench_ok_set_random, Hok|].
  destruct (enqueue_frame "x_resp" obj
              (set_random (snd (randint_between 1 10 r1)) tb))
    as (tb2 & Henq2 & Hco & _ & Hsub);
    [auto | apply bench_ok_set_random, Hok |].
  rewrite Henq in Henq2. inversion Henq2; subst tb2.
  exists tb', b, (fst (randint_between 1 10 r1)).
  split; [exact Henq|]. split; [apply randint_range; lia|].
  split; [exact Hq|].
  rewrite !Hother by discriminate. rewrite Href, Hco, Hrng.
  repeat split. exact Hsub.
Qed.

(** X5: the [random] testcase succeeds for every [packets] and [delay], also
    for [packets <= 0], where the loop does nothing.  It leaves
    [max(0, packets)] reference transactions split over the two initiators,
    exactly two backpressure transactions on [x_resp] (the always-ready one,
    then a random one held for 1 to 10 cycles), [_rand_bp] as the one
    [POST_DRIVE] subscriber of [x_resp], and the coroutine ["wait"] as the
    one registered task. *)
Theorem random_testcase_end (rng : Random) (packets delay : Z) :
  exists (tb0 tb : bench) (bp : transaction),
    Testbench_init rng = ok tb0 /\
    random packets delay tb0 = ok tb /\
    queue_of "x_resp" tb =
      [TBackpressure {| ready := true; cycles := 1 |}; bp] /\
    backpressure_within 1 10 bp /\
    subscribers_of "x_resp" POST_DRIVE tb = [cb_rand_bp] /\
    coroutines tb = [("wait", delay)] /\
    Z.of_nat (length (reference_of "x_mon" tb)) = Z.max 0 packets /\
    Z.of_nat (length (queue_of "a_init" tb) + length (queue_of "b_init" tb)) =
      Z.max 0 packets.
Proof.
  destruct (random_prefix_merge rng (Z.to_nat packets))
    as (st & Hrun & Hok & Hint & _ & Hlen & Hco & Hsub & _).
  destruct (random_prefix_drift rng (Z.to_nat packets))
    as (st2 & Hrun2 & _ & _ & _ & _ & Hqx & _).
  rewrite Hrun in Hrun2. inversion Hrun2; subst st2.
  unfold random_prefix in Hrun.
  destruct (Testbench_init rng) as [e|tb0] eqn:Hinit; [discriminate|].
  cbn [rbind] in Hrun.
  destruct (random_prologue tb0) as [e|st0] eqn:Hpro; [discriminate|].
  cbn [rbind] in Hrun.
  destruct (subscribe_post_drive_full cb_rand_bp (loop_tb st) Hok)
    as (tb1 & Hs1 & Hok1 & Hq1 & Hr1 & Hc1 & _ & Hsub1).
  destruct (rand_bp_full tb1 Hok1)
    as (tb2 & b & c & Hbp & Hc & Hqx2 & Hqa2 & Hqb2 & Hr2 & Hc2 & Hsub2 & _).
  exists tb0, (register_coroutine "wait" delay tb2),
    (TBackpressure {| ready := b; cycles := c |}).
  split; [reflexivity|]. split.
  { unfold random. rewrite Hpro. cbn [rbind].
    rewrite Hrun. cbn [rbind ok]. rewrite Hs1. cbn [rbind ok].
    rewrite Hbp. reflexivity. }
  change (queue_of "x_resp" (register_coroutine "wait" delay tb2))
    with (queue_of "x_resp" tb2).
  change (queue_of "a_init" (register_coroutine "wait" delay tb2))
    with (queue_of "a_init" tb2).
  change (queue_of "b_init" (register_coroutine "wait" delay tb2))
    with (queue_of "b_init" tb2).
  change (reference_of "x_mon" (register_coroutine "wait" delay tb2))
    with (reference_of "x_mon" tb2).
  change (subscribers_of "x_resp" POST_DRIVE
            (register_coroutine "wait" delay tb2))
    with (subscribers_of "x_resp" POST_DRIVE tb2).
  cbn [coroutines register_coroutine].
  rewrite Hqx2, Hqa2, Hqb2, Hr2, Hc2, Hsub2, !Hq1, Hr1, Hc1, Hsub1.
  rewrite Hqx, Hco, Hsub.
  rewrite <- (interleaved_lengths _ _ _ Hint), Hlen.
  repeat split; cbn [cycles]; lia.
Qed.

(** * The guards of [Testbench.model] *)

(** X6: [Testbench.model] raises [AttributeError] on a bench where
    [a_init] or [b_init] is not registered (its first assertion evaluates
    both, [a_init] first).  Where both are registered it raises
    [AssertionError] for a driver other than these two and for an event
    other than [ENQUEUE], and [KeyError] when there is no channel
    ["x_mon"]; when it succeeds it has changed nothing but that channel:
    drivers, generator, tasks and the other channels are as before. *)
Theorem Testbench_model_guards (drv : string) (event : DriverEvent)
    (obj : transaction) (tb : bench) :
  (drivers tb !! "a_init" = None ->
   Testbench_model drv event obj tb = raise (AttributeError "a_init")) /\
  (is_Some (drivers tb !! "a_init") -> drivers tb !! "b_init" = None ->
   Testbench_model drv event obj tb = raise (AttributeError "b_init")) /\
  (is_Some (drivers tb !! "a_init") -> is_Some (drivers tb !! "b_init") ->
   (drv <> "a_init" -> drv <> "b_init" ->
    Testbench_model drv event obj tb = raise AssertionError) /\
   (event <> ENQUEUE ->
    Testbench_model drv event obj tb = raise AssertionError) /\
   (drv = "a_init" \/ drv = "b_init" -> event = ENQUEUE ->
    channels tb !! "x_mon" = None ->
    Testbench_model drv event obj tb = raise (KeyError "x_mon"))) /\
  (forall tb' : bench,
      Testbench_model drv event obj tb = ok tb' ->
      is_Some (drivers tb !! "a_init") /\ is_Some (drivers tb !! "b_init") /\
      (drv = "a_init" \/ drv = "b_init") /\ event = ENQUEUE /\
      drivers tb' = drivers tb /\ tb_random tb' = tb_random tb /\
      coroutines tb' = coroutines tb /\ monitors tb' = monitors tb /\
      forall name : string,
        name <> "x_mon" -> channels tb' !! name = channels tb !! name).
Proof.
  unfold Testbench_model, get_driver.
  destruct (drivers tb !! "a_init") as [da|] eqn:Hda; cbn [rbind ok raise].
  2:{ split; [reflexivity|]. split; [intros [? ?]; discriminate|].
      split; [intros [? ?]; discriminate | intros; discriminate]. }
  destruct (drivers tb !! "b_init") as [db|] eqn:Hdb; cbn [rbind ok raise].
  2:{ split; [intros; discriminate|]. split; [reflexivity|].
      split; [intros _ [? ?]; discriminate | intros; discriminate]. }
  split; [intros; discriminate|]. split; [intros; discriminate|].
  destruct (bool_decide (drv ∈ ["a_init"; "b_init"])) eqn:Hdrv.
  - apply bool_decide_eq_true in Hdrv.
    rewrite !elem_of_cons, elem_of_nil in Hdrv.
    assert (Hname : drv = "a_init" \/ drv = "b_init") by tauto.
    cbn [negb]. destruct (bool_decide (event = ENQUEUE)) eqn:Hev.
    + apply bool_decide_eq_true in Hev. cbn [negb]. split.
      * intros _ _. split; [intros; tauto|]. split; [intros; contradiction|].
        intros _ _ ->. reflexivity.
      * intros tb' Hrun.
        destruct (channels tb !! "x_mon") as [ch|]; [|discriminate].
        destruct (push_reference ch obj) as [m|ch']; [discriminate|].
        inversion Hrun; subst tb'. cbn [drivers tb_random coroutines monitors
                                         channels set_channel].
        split; [eauto|]. split; [eauto|].
        repeat split; try assumption.
        intros name Hne. rewrite lookup_insert_ne by congruence. reflexivity.
    + apply bool_decide_eq_false in Hev. cbn [negb]. split.
      * intros _ _. split; [reflexivity|]. split; [reflexivity|].
        intros; contradiction.
      * intros; discriminate.
  - apply bool_decide_eq_false in Hdrv.
    rewrite !elem_of_cons, elem_of_nil in Hdrv. cbn [negb]. split.
    + intros _ _. split; [reflexivity|]. split; [reflexivity|].
      intros; tauto.
    + intros; discriminate.
Qed.

(** * More on the sequences *)

Lemma traffic_objs_length (n : nat) :
  forall r : Random, length (traffic_objs r n) = n.
Proof. induction n as [|n IH]; intros r; cbn [traffic_objs length]; auto. Qed.

Lemma traffic_objs_words (n : nat) :
  forall r : Random, Forall stream_word (traffic_objs r n).
Proof.
  induction n as [|n IH]; intros r; cbn [traffic_objs]; constructor.
  - apply (getrandbits_range 32). lia.
  - apply IH.
Qed.

Lemma traffic_random_drawn (n : nat) :
  forall r : Random,
    drawn (traffic_random r n) = (drawn r + n)%nat /\
    draws (traffic_random r n) = draws r.
Proof.
  induction n as [|n IH]; intros r; cbn [traffic_random].
  - split; [lia|reflexivity].
  - destruct (IH (snd (getrandbits 32 r))) as [Hd Hs].
    rewrite Hd, Hs. cbn. split; [lia|reflexivity].
Qed.

Lemma traffic_trace_waits (objs : list transaction) :
  waits (traffic_trace objs) = 0%nat.
Proof. induction objs as [|o objs IH]; [reflexivity|exact IH]. Qed.

Lemma traffic_trace_releases (objs : list transaction) :
  releases (traffic_trace objs) = length objs.
Proof.
  induction objs as [|o objs IH]; [reflexivity|].
  cbn [length]. rewrite <- IH. reflexivity.
Qed.





(** X7: [stream_traffic_seq] runs to its end whatever the driver does (it
    waits for no driver event): it enqueues exactly [max(0, length)] stream
    transactions of 32-bit data, one draw and one take and release of the
    lock each, logs its one message and ends with the lock free. *)
Theorem stream_traffic_seq_generates {weight : Type} (n : Z) (rng : Random)
    (k : nat) :
  exists s' : sequencer,
    runs_to (@seq_handle weight) (stream_traffic_seq n) (seq_start rng k)
      (Returned tt s') /\
    Z.of_nat (length (seq_queue s')) = Z.max 0 n /\
    Forall stream_word (seq_queue s') /\
    Z.of_nat (releases (seq_trace s')) = Z.max 0 n /\
    waits (seq_trace s') = 0%nat /\
    deliveries s' = k /\
    Z.of_nat (drawn (seq_random s')) = Z.of_nat (drawn rng) + Z.max 0 n /\
    lock_held s' = false /\
    seq_messages s' = ["Generating " +:+ pretty n +:+ " random transactions"].
Proof.
  eexists. split.
  - unfold stream_traffic_seq, seq_start. seq_event. apply traffic_rounds.
  - cbn [seq_queue seq_trace deliveries seq_random lock_held seq_messages app].
    rewrite traffic_objs_length, traffic_trace_releases, traffic_objs_length,
      traffic_trace_waits.
    destruct (traffic_random_drawn (Z.to_nat n) rng) as [-> _].
    repeat split; try lia. apply traffic_objs_words.
Qed.

(** X8: a sequence that finds the driver's lock taken does nothing to the
    driver: [stream_traffic_seq] (for [length >= 1]) and
    [stream_backpressure_seq] are suspended on the lock with the queue, the
    trace and the generator as they found them. *)
Theorem sequences_wait_for_lock {weight : Type} (one_minus : weight -> weight)
    (n min_interval max_interval : Z) (backpressure : weight) (s : sequencer) :
  lock_held s = true ->
  1 <= n ->
  (exists s' : sequencer,
      runs_to (@seq_handle weight) (stream_traffic_seq n) s (Suspended s') /\
      seq_queue s' = seq_queue s /\ seq_trace s' = seq_trace s /\
      seq_random s' = seq_random s /\ lock_held s' = true) /\
  runs_to (@seq_handle weight)
    (stream_backpressure_seq one_minus min_interval max_interval backpressure)
    s (Suspended s).
Proof.
  intros Hheld Hn. split.
  - eexists. split.
    + unfold stream_traffic_seq. seq_event.
      destruct (Z.to_nat n) as [|m] eqn:Hm; [lia|].
      cbn [for_range]. apply runs_to_bind_suspended.
      unfold with_lock. apply runs_to_bind_suspended.
      apply runs_to_trigger_suspended. cbn [seq_handle lock_held].
      rewrite Hheld. reflexivity.
    + cbn [seq_queue seq_trace seq_random lock_held]. auto.
  - unfold stream_backpressure_seq, with_lock.
    apply runs_to_bind_suspended, runs_to_trigger_suspended.
    cbn [seq_handle]. rewrite Hheld. reflexivity.
Qed.


(** * More on the monitor and the initiator *)

Lemma reads_app (l1 l2 : list (nat * obs)) :
  reads (l1 ++ l2) = reads l1 ++ reads l2.
Proof. unfold reads. apply omap_app. Qed.

Lemma writes_monitor_log (active : Z) (es : list edge) :
  forall n : nat, writes (monitor_log active n es) = [].
Proof.
  induction es as [|e es IH]; intros n; [reflexivity|].
  cbn [monitor_log]. rewrite writes_app, IH, app_nil_r.
  unfold monitor_edge_log.
  destruct (rst_value e =? active); [reflexivity|].
  destruct (truthy (io_value e "valid" 1)); [|reflexivity].
  destruct (truthy (io_value e "ready" 1)); reflexivity.
Qed.

Lemma captures_monitor_log (active : Z) (es : list edge) :
  forall n : nat, captures (monitor_log active n es) = sampled_log active n es.
Proof.
  induction es as [|e es IH]; intros n; [reflexivity|].
  cbn [monitor_log sampled_log].
  rewrite captures_app, captures_monitor_edge_log, IH. reflexivity.
Qed.

Lemma monitor_log_in_reset (active : Z) (es : list edge) :
  Forall (fun e => rst_value e = active) es ->
  forall n : nat,
    reads (monitor_log active n es) = [] /\ sampled_log active n es = [].
Proof.
  induction 1 as [|e es He _ IH]; intros n; [split; reflexivity|].
  cbn [monitor_log sampled_log]. destruct (IH (S n)) as [Hr Hs].
  rewrite reads_app, Hr, Hs, !app_nil_r.
  unfold monitor_edge_log, sampled. rewrite He, Z.eqb_refl. split; reflexivity.
Qed.

Lemma sampled_log_app (active : Z) (es1 es2 : list edge) :
  forall n : nat,
    sampled_log active n (es1 ++ es2) =
    sampled_log active n es1 ++ sampled_log active (n + length es1) es2.
Proof.
  induction es1 as [|e es1 IH]; intros n.
  - cbn [app sampled_log length]. rewrite Nat.add_0_r. reflexivity.
  - cbn [app sampled_log length]. rewrite IH, <- app_assoc.
    replace (n + S (length es1))%nat with (S n + length es1)%nat by lia.
    reflexivity.
Qed.

Lemma reads_monitor_edge_log (active : Z) (t : nat) (e : edge) :
  reads (monitor_edge_log active t e) = pair t <$> edge_reads active e.
Proof.
  unfold monitor_edge_log, edge_reads.
  destruct (rst_value e =? active); [reflexivity|].
  destruct (truthy (io_value e "valid" 1)); [|reflexivity].
  destruct (truthy (io_value e "ready" 1)); reflexivity.
Qed.

Lemma reads_at_app (t : nat) (l1 l2 : list (nat * obs)) :
  reads_at t (l1 ++ l2) = reads_at t l1 ++ reads_at t l2.
Proof.
  unfold reads_at. rewrite reads_app, filter_app, fmap_app. reflexivity.
Qed.

Lemma reads_at_edge_log (active : Z) (t u : nat) (e : edge) :
  reads_at t (monitor_edge_log active u e) =
  if decide (u = t) then edge_reads active e else [].
Proof.
  unfold reads_at. rewrite reads_monitor_edge_log.
  induction (edge_reads active e) as [|x xs IH].
  - destruct (decide (u = t)); reflexivity.
  - rewrite fmap_cons, filter_cons. cbn [fst].
    destruct (decide (u = t)); cbn [fmap list_fmap snd]; rewrite IH.
    + destruct (decide (u = t)); [reflexivity|contradiction].
    + destruct (decide (u = t)); [contradiction|reflexivity].
Qed.

Lemma reads_at_monitor_log_early (active : Z) (es : list edge) :
  forall t m : nat,
    (t <= m)%nat -> reads_at t (monitor_log active m es) = [].
Proof.
  induction es as [|e es IH]; intros t m Hm; [reflexivity|].
  cbn [monitor_log]. rewrite reads_at_app, reads_at_edge_log.
  destruct (decide (S m = t)); [lia|]. apply IH. lia.
Qed.

Lemma reads_at_monitor_log (active : Z) (es : list edge) :
  forall n i : nat,
    reads_at (S (n + i)) (monitor_log active n es) =
    from_option (edge_reads active) [] (es !! i).
Proof.
  induction es as [|e es IH]; intros n i; [reflexivity|].
  cbn [monitor_log]. rewrite reads_at_app, reads_at_edge_log.
  destruct i as [|i].
  - rewrite Nat.add_0_r. destruct (decide (S n = S n)); [|contradiction].
    cbn [lookup list_lookup from_option].
    rewrite reads_at_monitor_log_early by lia. apply app_nil_r.
  - destruct (decide (S n = S (n + S i))); [lia|].
    replace (S (n + S i)) with (S (S n + i)) by lia.
    rewrite IH. reflexivity.
Qed.

(** X10: [StreamMonitor.monitor] is passive and keeps the order of the
    port: on every run it writes no signal, and the transactions it hands
    to the capture callback are those of the sampling rule, edge after
    edge.  At every edge of the run it reads exactly the port signals
    [edge_reads] names; in particular, at every edge where reset is active,
    whatever the other edges of the run are, it reads no port signal and
    captures nothing. *)
Theorem StreamMonitor_monitor_passive (active : Z) (n : nat) (c : edge)
    (l : list (nat * obs)) (es : list edge) :
  exists s' : sim,
    runs_to sim_handle (StreamMonitor_monitor active)
      {| now := n; cur := c; pending := es; log := l |} (Suspended s') /\
    writes (log s') = writes l /\
    captures (log s') = captures l ++ sampled_log active n es /\
    (forall i : nat,
        reads_at (S (n + i)) (log s') =
        reads_at (S (n + i)) l ++ from_option (edge_reads active) [] (es !! i)) /\
    (forall (i : nat) (e : edge),
        es !! i = Some e ->
        rst_value e = active ->
        reads_at (S (n + i)) (log s') = reads_at (S (n + i)) l /\
        captured_at (S (n + i)) (log s') = captured_at (S (n + i)) l) /\
    (Forall (fun e => rst_value e = active) es ->
     reads (log s') = reads l /\ captures (log s') = captures l).
Proof.
  eexists. split; [apply monitor_runs|]. cbn [log].
  rewrite writes_app, writes_monitor_log, captures_app, captures_monitor_log,
    reads_app, app_nil_r.
  split; [reflexivity|]. split; [reflexivity|]. split; [|split].
  - intros i. rewrite reads_at_app, reads_at_monitor_log. reflexivity.
  - intros i e Hi Hrst.
    rewrite reads_at_app, reads_at_monitor_log, captured_at_app,
      captured_at_monitor_log, Hi.
    cbn [from_option]. unfold edge_reads, sampled.
    rewrite Hrst, Z.eqb_refl, !app_nil_r. split; reflexivity.
  - intros Hrst. destruct (monitor_log_in_reset active es Hrst n) as [-> ->].
    rewrite !app_nil_r. split; reflexivity.
Qed.

Lemma sampled_log_pending (active : Z) (obj : StreamTransaction)
    (es : list edge) :
  Forall (fun x => ready_at x = false) es ->
  Forall (shows active obj) es ->
  forall n : nat, sampled_log active n es = [].
Proof.
  induction 1 as [|e es He _ IH]; intros Hshow n; [reflexivity|].
  inversion Hshow as [|? ? (Hv & Hd & Hr) Hrest]; subst.
  cbn [sampled_log]. rewrite (IH Hrest), app_nil_r.
  unfold sampled. unfold ready_at in He. rewrite Hr, Hv, He. reflexivity.
Qed.

(** X11: a transfer is captured exactly once.  When a monitor watches the
    port on which [StreamInitiator.drive(obj)] is pending (the edges show
    [valid] and [obj.data], out of reset, and [ready] for the first time at
    the last one), its only capture is [obj], made at the very edge at which
    [drive] returns, however many edges the transfer was kept waiting. *)
Theorem drive_captured_once (active : Z) (obj : StreamTransaction) (n : nat)
    (c : edge) (l : list (nat * obs)) (pre : list edge) (e : edge)
    (post : list edge) :
  Forall (fun x => ready_at x = false) pre ->
  ready_at e = true ->
  Forall (shows active obj) (pre ++ [e]) ->
  exists sd sm : sim,
    runs_to sim_handle (StreamInitiator_drive obj)
      {| now := n; cur := c; pending := pre ++ e :: post; log := l |}
      (Returned tt sd) /\
    runs_to sim_handle (StreamMonitor_monitor active)
      {| now := n; cur := c; pending := pre ++ [e]; log := [] |}
      (Suspended sm) /\
    now sd = (n + length pre + 1)%nat /\
    captures (log sm) = [(now sd, obj)].
Proof.
  intros Hpre He Hshow.
  apply Forall_app in Hshow. destruct Hshow as [Hshow_pre Hshow_e].
  inversion Hshow_e as [|? ? (Hv & Hd & Hr) _]; subst.
  eexists. eexists. split; [apply drive_accepted; assumption|].
  split; [apply monitor_runs|]. cbn [now log app].
  split; [reflexivity|].
  rewrite captures_monitor_log, sampled_log_app.
  rewrite (sampled_log_pending active obj pre Hpre Hshow_pre), app_nil_l.
  cbn [sampled_log]. rewrite app_nil_r.
  unfold sampled. unfold ready_at in He. rewrite Hr, Hv, He, Hd.
  cbn [andb fmap list_fmap]. destruct obj as [d]. cbn [data].
  replace (S (n + length pre)) with (n + length pre + 1)%nat by lia.
  reflexivity.
Qed.

Lemma runs_to_bind_inv {E : Type -> Type} {St : Type}
    (handle : forall T : Type, E T -> St -> St * option T) {R U : Type}
    (t : itree E R) (k : R -> itree E U) (s s1 : St) (r : R) (o : outcome U) :
  runs_to handle (ITree.bind t k) s o ->
  runs_to handle t s (Returned r s1) ->
  o <> OutOfFuel ->
  runs_to handle (k r) s1 o.
Proof.
  intros [f0 H0] [f1 H1] Hne.
  destruct (run_bind_returned handle k r s1 f1 t s (H1 f1 (Nat.le_refl _)) f0)
    as (g' & Hg & Heq).
  rewrite H0 in Heq by lia.
  apply (run_runs_to handle g'); [symmetry; exact Heq | exact Hne].
Qed.

(** X12: consecutive calls of [StreamInitiator.drive] on a port that
    accepts at every edge move one transaction per edge, in the order of the
    calls: call number [i] writes its data and [valid := 1] at edge count
    [n + i] and [valid := 0] at [n + i + 1], and the whole series returns
    after as many edges as there are transactions. *)
Theorem drive_each_back_to_back (objs : list StreamTransaction) :
  forall (n : nat) (c : edge) (l : list (nat * obs)) (es post : list edge),
    length es = length objs ->
    Forall (fun x => ready_at x = true) es ->
    exists s' : sim,
      runs_to sim_handle (drive_each objs)
        {| now := n; cur := c; pending := es ++ post; log := l |}
        (Returned tt s') /\
      now s' = (n + length objs)%nat /\
      pending s' = post /\
      writes (log s') = writes l ++ back_to_back_writes n objs.
Proof.
  induction objs as [|obj objs IH]; intros n c l es post Hlen Hall.
  - destruct es; [|discriminate]. eexists. split; [apply runs_to_ret|].
    cbn [now pending log length back_to_back_writes app].
    rewrite Nat.add_0_r, app_nil_r. auto.
  - destruct es as [|e es]; [discriminate|].
    inversion Hall as [|? ? He Hes]; subst.
    destruct (IH (n + 0 + 1)%nat e
                (l ++ [(n, ObsSet "data" (data obj)); (n, ObsSet "valid" 1)]
                   ++ ready_polls n ([] ++ [e])
                   ++ [((n + 0 + 1)%nat, ObsSet "valid" 0)])
                es post)
      as (s' & Hrun & Hnow & Hpend & Hw);
      [cbn [length] in Hlen; lia | exact Hes |].
    exists s'. split.
    + cbn [drive_each]. eapply runs_to_bind; [|exact Hrun].
      apply (drive_accepted obj n c l [] e (es ++ post)); [constructor|exact He].
    + split; [cbn [length]; lia|]. split; [exact Hpend|].
      rewrite Hw, !writes_app, writes_ready_polls.
      cbn [back_to_back_writes]. unfold writes at 2 4. cbn.
      replace (n + 0 + 1)%nat with (S n) by lia.
      rewrite <- !app_assoc. reflexivity.
Qed.

(** X13: whatever the port does, consecutive calls of
    [StreamInitiator.drive] never move more than one transaction per rising
    edge: a series of calls that has returned has seen at least as many
    edges as it has transactions. *)
Theorem drive_each_one_per_edge (objs : list StreamTransaction) :
  forall s s' : sim,
    runs_to sim_handle (drive_each objs) s (Returned tt s') ->
    (now s + length objs <= now s')%nat.
Proof.
  induction objs as [|obj objs IH]; intros s s' Hrun.
  - pose proof (runs_to_det sim_handle _ _ _ _ Hrun (runs_to_ret sim_handle tt s))
      as Heq.
    inversion Heq; subst. cbn [length]. lia.
  - destruct s as [n c es l]. cbn [drive_each] in Hrun.
    destruct (edges_first_ready es) as [Hall | (pre & e & post & -> & Hpre & He)].
    + pose proof (runs_to_bind_suspended sim_handle _
                    (fun _ => drive_each objs) _ _
                    (drive_refused obj n c l es Hall)) as Hsusp.
      pose proof (runs_to_det sim_handle _ _ _ _ Hrun Hsusp) as Heq.
      discriminate.
    + pose proof (runs_to_bind_inv sim_handle _ (fun _ => drive_each objs)
                    _ _ tt _ Hrun (drive_accepted obj n c l pre e post Hpre He))
        as Hrest.
      specialize (IH _ s' (Hrest ltac:(discriminate))).
      cbn [now length] in *. lia.
Qed.

(** * The further theorems at sample inputs *)

(** [Testbench_model_guards]: calls on benches that lack [a_init] or
    [b_init], a call for [x_resp], a call for [PRE_DRIVE], a call on a bench
    without channel, and a call that succeeds. *)
Lemma Testbench_model_guards_witness :
  Testbench_model "a_init" ENQUEUE (sample_txn 5)
    (BaseBench_init (constant_random 0)) = raise (AttributeError "a_init") /\
  Testbench_model "a_init" ENQUEUE (sample_txn 5) sample_bench_a_only =
    raise (AttributeError "b_init") /\
  Testbench_model "x_resp" ENQUEUE (sample_txn 5) sample_bench =
    raise AssertionError /\
  Testbench_model "a_init" PRE_DRIVE (sample_txn 5) sample_bench =
    raise AssertionError /\
  Testbench_model "a_init" ENQUEUE (sample_txn 5) sample_bench_unmonitored =
    raise (KeyError "x_mon") /\
  drivers
    (set_channel "x_mon"
       {| reference := [sample_txn 5]; actual := []; window := 4 |}
       sample_bench) = drivers sample_bench.
Proof.
  split; [|split; [|split; [|split; [|split]]]].
  - destruct (Testbench_model_guards "a_init" ENQUEUE (sample_txn 5)
                (BaseBench_init (constant_random 0))) as (Ha & _).
    apply Ha. reflexivity.
  - destruct (Testbench_model_guards "a_init" ENQUEUE (sample_txn 5)
                sample_bench_a_only) as (_ & Hb & _).
    apply Hb; [eexists|]; reflexivity.
  - destruct (Testbench_model_guards "x_resp" ENQUEUE (sample_txn 5)
                sample_bench) as (_ & _ & Hreg & _).
    destruct Hreg as (Hdrv & _); [eexists; reflexivity ..|].
    apply Hdrv; discriminate.
  - destruct (Testbench_model_guards "a_init" PRE_DRIVE (sample_txn 5)
                sample_bench) as (_ & _ & Hreg & _).
    destruct Hreg as (_ & Hev & _); [eexists; reflexivity ..|].
    apply Hev. discriminate.
  - destruct (Testbench_model_guards "a_init" ENQUEUE (sample_txn 5)
                sample_bench_unmonitored) as (_ & _ & Hreg & _).
    destruct Hreg as (_ & _ & Hkey); [eexists; reflexivity ..|].
    apply Hkey; [left|..]; reflexivity.
  - destruct (Testbench_model_guards "b_init" ENQUEUE (sample_txn 5)
                sample_bench) as (_ & _ & _ & Hok).
    apply (Hok (set_channel "x_mon"
                  {| reference := [sample_txn 5]; actual := []; window := 4 |}
                  sample_bench)).
    reflexivity.
Defined.

(** [sequences_wait_for_lock] for 5 packets on a taken lock. *)
Lemma sequences_wait_for_lock_witness :
  (exists s' : sequencer,
      runs_to (@seq_handle QArith_base.Q) (stream_traffic_seq 5) sample_locked
        (Suspended s') /\
      seq_queue s' = [] /\ seq_trace s' = [] /\
      seq_random s' = constant_random 0 /\ lock_held s' = true) /\
  runs_to (@seq_handle QArith_base.Q)
    (stream_backpressure_seq (QArith_base.Qminus (QArith_base.Qmake 1 1))
       1 10 (QArith_base.Qmake 1 2))
    sample_locked (Suspended sample_locked).
Proof.
  apply (sequences_wait_for_lock
           (QArith_base.Qminus (QArith_base.Qmake 1 1)) 5 1 10
           (QArith_base.Qmake 1 2) sample_locked).
  - reflexivity.
  - lia.
Defined.


(** [StreamMonitor_monitor_passive] on a run whose second edge is in
    reset, between two edges that are not. *)
Lemma StreamMonitor_monitor_passive_witness :
  exists s' : sim,
    runs_to sim_handle (StreamMonitor_monitor 1)
      {| now := 0; cur := sample_edge 0 0 0;
         pending := [sample_edge 1 1 5; sample_reset_edge 1 1 6;
                     sample_edge 1 1 7];
         log := [] |}
      (Suspended s') /\
    reads_at 1 (log s') = ["valid"; "ready"; "data"] /\
    reads_at 2 (log s') = [] /\
    captured_at 2 (log s') = [] /\
    reads_at 3 (log s') = ["valid"; "ready"; "data"].
Proof.
  destruct (StreamMonitor_monitor_passive 1 0 (sample_edge 0 0 0) []
              [sample_edge 1 1 5; sample_reset_edge 1 1 6; sample_edge 1 1 7])
    as (s' & Hrun & _ & _ & Hreads & Hreset & _).
  exists s'. split; [exact Hrun|].
  split; [exact (Hreads 0%nat)|].
  destruct (Hreset 1%nat (sample_reset_edge 1 1 6) eq_refl eq_refl)
    as [Hr Hc].
  split; [exact Hr|]. split; [exact Hc|]. exact (Hreads 2%nat).
Defined.

(** [drive_captured_once] for the data word 7 accepted at the third edge. *)
Lemma drive_captured_once_witness :
  exists sd sm : sim,
    runs_to sim_handle (StreamInitiator_drive {| data := 7 |})
      {| now := 0; cur := sample_edge 0 0 0;
         pending := [sample_edge 1 0 7; sample_edge 1 0 7; sample_edge 1 1 7;
                     sample_edge 0 0 0];
         log := [] |}
      (Returned tt sd) /\
    runs_to sim_handle (StreamMonitor_monitor 1)
      {| now := 0; cur := sample_edge 0 0 0;
         pending := [sample_edge 1 0 7; sample_edge 1 0 7; sample_edge 1 1 7];
         log := [] |}
      (Suspended sm) /\
    now sd = 3%nat /\
    captures (log sm) = [(now sd, {| data := 7 |})].
Proof.
  apply (drive_captured_once 1 {| data := 7 |} 0 (sample_edge 0 0 0) []
           [sample_edge 1 0 7; sample_edge 1 0 7] (sample_edge 1 1 7)
           [sample_edge 0 0 0]).
  - repeat constructor.
  - reflexivity.
  - repeat constructor.
Defined.

(** [drive_each_back_to_back] for two transactions. *)
Lemma drive_each_back_to_back_witness :
  exists s' : sim,
    runs_to sim_handle (drive_each [{| data := 1 |}; {| data := 2 |}])
      {| now := 0; cur := sample_edge 0 0 0;
         pending := [sample_edge 1 1 1; sample_edge 1 1 2; sample_edge 0 0 0];
         log := [] |}
      (Returned tt s') /\
    now s' = 2%nat /\
    pending s' = [sample_edge 0 0 0] /\
    writes (log s') =
      [(0%nat, ("data", 1)); (0%nat, ("valid", 1)); (1%nat, ("valid", 0));
       (1%nat, ("data", 2)); (1%nat, ("valid", 1)); (2%nat, ("valid", 0))].
Proof.
  apply (drive_each_back_to_back [{| data := 1 |}; {| data := 2 |}] 0
           (sample_edge 0 0 0) [] [sample_edge 1 1 1; sample_edge 1 1 2]
           [sample_edge 0 0 0]).
  - reflexivity.
  - repeat constructor.
Defined.

(** [drive_each_one_per_edge] for two transactions, the first of which is
    refused once. *)
Lemma drive_each_one_per_edge_witness :
  (now {| now := 0; cur := sample_edge 0 0 0;
          pending := [sample_edge 1 0 1; sample_edge 1 1 1; sample_edge 1 1 2];
          log := [] |}
   + length [{| data := 1 |}; {| data := 2 |}]
   <= now {| now := 3; cur := sample_edge 1 1 2; pending := [];
             log := [(0, ObsSet "data" 1); (0, ObsSet "valid" 1);
                     (1, ObsGet "ready" 0); (2, ObsGet "ready" 1);
                     (2, ObsSet "valid" 0); (2, ObsSet "data" 2);
                     (2, ObsSet "valid" 1); (3, ObsGet "ready" 1);
                     (3, ObsSet "valid" 0)]%nat |})%nat.
Proof.
  apply (drive_each_one_per_edge [{| data := 1 |}; {| data := 2 |}]).
  apply (run_runs_to sim_handle 40).
  - vm_compute. reflexivity.
  - discriminate.
Defined.
